(** * heredity.py: exact inference over a pedigree by enumeration

    A shallow embedding of [src/heredity.py] and the properties of its
    inference core: [powerset], [joint_probability], [getGene], [inherit],
    [update], [normalize] and the enumeration loop of [main].

    Modelling conventions.
    - Numbers are read in two ways.  In the exact reading Python's [float]
      (and the [int] zeros the accumulators start from) are rationals, [Qc]:
      a literal denotes the decimal it is written as and [+ - * /] are
      exact; it serves the statements that compare the code with the
      probabilities it computes.  In the binary64 reading (module [B64]) the
      same functions run over primitive binary64 floats, with the rounding,
      overflow and underflow of the machine; it serves the statements about
      the very values the code returns.  In both, division by zero raises
      [ZeroDivisionError], as it does in Python for [int] and [float].
    - Exceptions.  A computation that may raise returns a [result]; the
      exceptions are the built-in ones the code can reach.
    - Dictionaries are association lists in insertion order; a Python dict
      has pairwise distinct keys ([is_dict]).
    - Sets of names are [gset string]; [elements] fixes the (arbitrary)
      iteration order of a set.
    - Argument handling, opening the file and printing are input/output
      glue and are not modelled: [main] takes the loaded [people] and
      returns the table it would print, and [load_data] takes the rows
      [csv.DictReader] yields. *)

From Stdlib Require Import QArith Qcanon ZArith.
From Stdlib Require Qcabs PrimFloat FloatOps.
From stdpp Require Import gmap strings list.

Local Open Scope Z_scope.

(** ** Python values, exceptions and dictionaries *)

Inductive exn : Set := KeyError | TypeError | ZeroDivisionError.

Inductive result (A : Type) : Type :=
  | Ok (a : A)
  | Raise (e : exn).
Arguments Ok {A} a.
Arguments Raise {A} e.

#[global] Instance result_ret : MRet result := @Ok.
#[global] Instance result_bind : MBind result := λ A B f m,
  match m with Ok a => f a | Raise e => Raise e end.

(** [for x in l: acc = f(acc, x)], stopping at the first exception. *)
Fixpoint foldM {S A} (f : S → A → result S) (acc : S) (l : list A) : result S :=
  match l with
  | [] => Ok acc
  | x :: l' => acc' ← f acc x; foldM f acc' l'
  end.

(** [any(f(x) for x in l)]: stops at the first [True]. *)
Fixpoint anyM {A} (f : A → result bool) (l : list A) : result bool :=
  match l with
  | [] => Ok false
  | x :: l' => b ← f x; if b : bool then Ok true else anyM f l'
  end.

(** Items of a list one after the other, stopping at the first exception. *)
Fixpoint forM {A B} (f : A → result B) (l : list A) : result (list B) :=
  match l with
  | [] => Ok []
  | x :: l' => y ← f x; ys ← forM f l'; Ok (y :: ys)
  end.

Definition dict (K V : Type) : Type := list (K * V).

Definition dict_keys {K V} (d : dict K V) : list K := d.*1.
Definition dict_values {K V} (d : dict K V) : list V := d.*2.

(** The keys of a Python dict are pairwise distinct. *)
Definition is_dict {K V} (d : dict K V) : Prop := NoDup (dict_keys d).

(** [d[k]] *)
Fixpoint dict_get {K V} `{EqDecision K} (d : dict K V) (k : K) : result V :=
  match d with
  | [] => Raise KeyError
  | (k', v) :: d' => if decide (k' = k) then Ok v else dict_get d' k
  end.

(** [d[k] = v]: an existing key keeps its position, a new one is appended. *)
Fixpoint dict_set {K V} `{EqDecision K} (d : dict K V) (k : K) (v : V) : dict K V :=
  match d with
  | [] => [(k, v)]
  | (k', v') :: d' =>
      if decide (k' = k) then (k, v) :: d' else (k', v') :: dict_set d' k v
  end.

(** [for k in d: d[k] = f(k, d[k])] *)
Definition dict_update_each {K V} `{EqDecision K}
    (f : K → V → result V) (d : dict K V) : result (dict K V) :=
  foldM (λ d k, v ← dict_get d k; v' ← f k v; Ok (dict_set d k v')) d (dict_keys d).

(** [d[k] += p] *)
Definition dict_iadd {K} `{EqDecision K} (d : dict K Qc) (k : K) (p : Qc)
    : result (dict K Qc) :=
  v ← dict_get d k; Ok (dict_set d k (v + p)%Qc).

(** A float literal, written as its decimal. *)
Definition float (q : Q) : Qc := Q2Qc q.

(** [x / y] *)
Definition py_div (x y : Qc) : result Qc :=
  if decide (y = 0%Qc) then Raise ZeroDivisionError else Ok (x / y)%Qc.

(** [sum(l)] *)
Definition py_sum (l : list Qc) : Qc := foldl Qcplus 0%Qc l.

(** [a * b] where either operand may be [None]. *)
Definition py_mul (a b : option Qc) : result Qc :=
  match a, b with
  | Some x, Some y => Ok (x * y)%Qc
  | _, _ => Raise TypeError
  end.

(** [x in s] for [x] a name or [None]; the sets hold names only. *)
Definition py_in (x : option string) (s : gset string) : bool :=
  match x with
  | Some n => bool_decide (n ∈ s)
  | None => false
  end.

(** ** The probability model *)

Record probs : Type := {
  P_gene : dict Z Qc;
  P_trait : dict Z (dict bool Qc);
  P_mutation : Qc
}.

Definition PROBS : probs := {|
  P_gene := [(2, float 0.01); (1, float 0.03); (0, float 0.96)];
  P_trait := [(2, [(true, float 0.65); (false, float 0.35)]);
              (1, [(true, float 0.56); (false, float 0.44)]);
              (0, [(true, float 0.01); (false, float 0.99)])];
  P_mutation := float 0.01
|}.

(** ** The pedigree and the accumulators *)

Record person_data : Type := {
  name : string;
  mother : option string;
  father : option string;
  trait : option bool
}.

Record dist : Type := {
  gene : dict Z Qc;
  d_trait : dict bool Qc
}.

(** ** powerset *)

(** [itertools.combinations(l, r)], in its lexicographic order. *)
Fixpoint combinations {A} (l : list A) (r : nat) {struct l} : list (list A) :=
  match r with
  | O => [[]]
  | S r' =>
      match l with
      | [] => []
      | x :: l' => map (cons x) (combinations l' r') ++ combinations l' r
      end
  end.

Definition powerset (s : gset string) : list (gset string) :=
  let s := elements s in
  map list_to_set (flat_map (combinations s) (seq 0 (length s + 1))).

(** ** joint_probability *)

Definition getGene (person : option string) (one_gene two_gene : gset string) : Z :=
  if py_in person one_gene then 1 else if py_in person two_gene then 2 else 0.

(** A gene count outside 0, 1, 2 falls through every branch: Python's [None]. *)
Definition inherit (parent_gene : Z) (trait : bool) : option Qc :=
  if parent_gene =? 0 then
    Some (if trait then P_mutation PROBS else 1 - P_mutation PROBS)%Qc
  else if parent_gene =? 1 then
    Some (float 0.5)
  else if parent_gene =? 2 then
    Some (if trait then 1 - P_mutation PROBS else P_mutation PROBS)%Qc
  else None.

(** [PROBS["trait"][g][t]] *)
Definition PROBS_trait (g : Z) (t : bool) : result Qc :=
  d ← dict_get (P_trait PROBS) g; dict_get d t.

(** The body of the loop of [joint_probability]. *)
Definition joint_step (people : dict string person_data)
    (one_gene two_genes have_trait : gset string)
    (probability : Qc) (person : string) : result Qc :=
  entry ← dict_get people person;
  let mom := mother entry in
  let dad := father entry in
  let personTrait := bool_decide (person ∈ have_trait) in
  let personGene := getGene (Some person) one_gene two_genes in
  if bool_decide (dad = None) && bool_decide (mom = None) then
    pt ← PROBS_trait personGene personTrait;
    pg ← dict_get (P_gene PROBS) personGene;
    Ok (probability * (pt * pg))%Qc
  else
    let mom_genes := getGene mom one_gene two_genes in
    let dad_genes := getGene dad one_gene two_genes in
    probability ←
      (if personGene =? 0 then
         t ← py_mul (inherit mom_genes false) (inherit dad_genes false);
         Ok (probability * t)%Qc
       else if personGene =? 1 then
         t1 ← py_mul (inherit mom_genes true) (inherit dad_genes false);
         t2 ← py_mul (inherit mom_genes false) (inherit dad_genes true);
         Ok (probability * (t1 + t2))%Qc
       else if personGene =? 2 then
         t ← py_mul (inherit mom_genes true) (inherit dad_genes true);
         Ok (probability * t)%Qc
       else Ok probability);
    pt ← PROBS_trait personGene personTrait;
    Ok (probability * pt)%Qc.

Definition joint_probability (people : dict string person_data)
    (one_gene two_genes have_trait : gset string) : result Qc :=
  foldM (joint_step people one_gene two_genes have_trait) (float 1.0) (dict_keys people).

(** ** update and normalize *)

Definition update (probabilities : dict string dist)
    (one_gene two_genes have_trait : gset string) (p : Qc)
    : result (dict string dist) :=
  dict_update_each (λ person entry,
    let personGene := getGene (Some person) one_gene two_genes in
    let personTrait := bool_decide (person ∈ have_trait) in
    g ← dict_iadd (gene entry) personGene p;
    t ← dict_iadd (d_trait entry) personTrait p;
    Ok {| gene := g; d_trait := t |}) probabilities.

(** The body of the loop of [normalize]: both sums are taken first, then the
    trait buckets are divided, then the gene buckets. *)
Definition normalize_entry (entry : dist) : result dist :=
  let sum_gene := py_sum (dict_values (gene entry)) in
  let sum_trait := py_sum (dict_values (d_trait entry)) in
  t ← dict_update_each (λ _ v, py_div v sum_trait) (d_trait entry);
  g ← dict_update_each (λ _ v, py_div v sum_gene) (gene entry);
  Ok {| gene := g; d_trait := t |}.

Definition normalize (probabilities : dict string dist) : result (dict string dist) :=
  dict_update_each (λ _ entry, normalize_entry entry) probabilities.

(** ** main *)

(** [any(people[person]["trait"] is not None and
         people[person]["trait"] != (person in have_trait) for person in names)] *)
Definition fails_evidence (people : dict string person_data)
    (names have_trait : gset string) : result bool :=
  anyM (λ person,
    entry ← dict_get people person;
    Ok (match trait entry with
        | Some t => negb (eqb t (bool_decide (person ∈ have_trait)))
        | None => false
        end)) (elements names).

Definition zero_dist : dist := {|
  gene := [(2, 0%Qc); (1, 0%Qc); (0, 0%Qc)];
  d_trait := [(true, 0%Qc); (false, 0%Qc)]
|}.

(** One pass of the innermost loop body of [main]. *)
Definition accumulate (people : dict string person_data)
    (probabilities : dict string dist)
    (one_gene two_genes have_trait : gset string) : result (dict string dist) :=
  p ← joint_probability people one_gene two_genes have_trait;
  update probabilities one_gene two_genes have_trait p.

Definition main (people : dict string person_data) : result (dict string dist) :=
  let probabilities := (λ person, (person, zero_dist)) <$> dict_keys people in
  let names : gset string := list_to_set (dict_keys people) in
  probabilities ←
    foldM (λ probabilities have_trait,
      fails ← fails_evidence people names have_trait;
      if fails : bool then Ok probabilities else
      foldM (λ probabilities one_gene,
        foldM (λ probabilities two_genes,
          accumulate people probabilities one_gene two_genes have_trait)
        probabilities (powerset (names ∖ one_gene)))
      probabilities (powerset names))
    probabilities (powerset names);
  normalize probabilities.

(** ** The evaluator as the specification words it

    These definitions follow the text of the specification (sections 4.1 to
    4.3), not the code; the theorems below compare [joint_probability] with
    them. *)

(** Gene count of a person under a hypothesis. *)
Definition gene_count (person : string) (one_gene two_genes : gset string) : Z :=
  if decide (person ∈ one_gene) then 1
  else if decide (person ∈ two_genes) then 2 else 0.

(** Unconditional gene-count probability of a founder, P(g). *)
Definition prior (g : Z) : Qc :=
  if g =? 0 then float 0.96 else if g =? 1 then float 0.03 else float 0.01.

(** Trait-given-gene-count probability, P(t|g). *)
Definition trait_given (g : Z) (t : bool) : Qc :=
  let p := if g =? 0 then float 0.01 else if g =? 1 then float 0.56 else float 0.65 in
  if t then p else (1 - p)%Qc.

(** Probability that one gamete of a parent with [g] copies carries the
    mutated allele. *)
Definition inherit_probability (g : Z) : Qc :=
  if g =? 0 then float 0.01 else if g =? 1 then float 0.5 else (1 - float 0.01)%Qc.

(** Probability that a child has [g] copies, by independent transmission. *)
Definition transmission (g g_mother g_father : Z) : Qc :=
  let pm := inherit_probability g_mother in
  let pf := inherit_probability g_father in
  (if g =? 0 then (1 - pm) * (1 - pf)
   else if g =? 1 then pm * (1 - pf) + (1 - pm) * pf
   else pm * pf)%Qc.

(** The factor a person contributes; undefined for half-specified parentage. *)
Definition person_factor (one_gene two_genes have_trait : gset string)
    (person : string) (entry : person_data) : option Qc :=
  let g := gene_count person one_gene two_genes in
  let t := bool_decide (person ∈ have_trait) in
  match mother entry, father entry with
  | None, None => Some (prior g * trait_given g t)%Qc
  | Some m, Some f =>
      Some (transmission g (gene_count m one_gene two_genes)
                           (gene_count f one_gene two_genes) * trait_given g t)%Qc
  | _, _ => None
  end.

Definition product (l : list Qc) : Qc := foldr Qcmult 1%Qc l.

(** ** Notions the statements use *)

(** *** One pass of the loop of [joint_probability] *)

(** What one pass multiplies the running product by: the founder factor
    when both parents are absent, the transmission factor otherwise, with
    the gene count of each parent as [getGene] finds it. *)
Definition step_factor (one_gene two_genes have_trait : gset string)
    (person : string) (entry : person_data) : Qc :=
  let g := gene_count person one_gene two_genes in
  let t := bool_decide (person ∈ have_trait) in
  match mother entry, father entry with
  | None, None => (prior g * trait_given g t)%Qc
  | mom, dad =>
      (transmission g (getGene mom one_gene two_genes)
                      (getGene dad one_gene two_genes) * trait_given g t)%Qc
  end.

(** *** Accumulator tables *)

(** An accumulator has the three gene-count buckets and the two trait
    buckets [main] creates it with; a table is a dict of accumulators. *)
Definition is_accumulator (entry : dist) : Prop :=
  dict_keys (gene entry) = [2; 1; 0] ∧ dict_keys (d_trait entry) = [true; false].

Definition is_table (probabilities : dict string dist) : Prop :=
  is_dict probabilities ∧
  ∀ person entry, (person, entry) ∈ probabilities → is_accumulator entry.

(** [sum(probabilities[person]["gene"].values())] and the same for the trait. *)
Definition sum_gene (entry : dist) : Qc := py_sum (dict_values (gene entry)).
Definition sum_trait (entry : dist) : Qc := py_sum (dict_values (d_trait entry)).

(** Every bucket divided by [s]. *)
Definition scale {K} (s : Qc) (d : dict K Qc) : dict K Qc :=
  (λ kv, (kv.1, kv.2 / s)%Qc) <$> d.

(** What [update] does to the accumulator of one person:
    [probabilities[person]["gene"][g] += p], then
    [probabilities[person]["trait"][t] += p]. *)
Definition bump (entry : dist) (g : Z) (t : bool) (p : Qc) : result dist :=
  g' ← dict_iadd (gene entry) g p;
  t' ← dict_iadd (d_trait entry) t p;
  Ok {| gene := g'; d_trait := t' |}.

(** What [update] makes of the accumulator [old] of [person]: [p] more in
    the bucket of the gene count and in the bucket of the trait of
    [person], the other buckets unchanged. *)
Definition bumped (one_gene two_genes have_trait : gset string) (p : Qc)
    (person : string) (old new : dist) : Prop :=
  is_accumulator new ∧
  (∀ g, dict_get (gene new) g
        = v ← dict_get (gene old) g;
          Ok (if decide (g = getGene (Some person) one_gene two_genes)
              then v + p else v)%Qc) ∧
  (∀ t, dict_get (d_trait new) t
        = v ← dict_get (d_trait old) t;
          Ok (if decide (t = bool_decide (person ∈ have_trait))
              then v + p else v)%Qc).

(** A table over the persons [keys] all of whose accumulators hold the
    mass [total] in their gene-count buckets and in their trait buckets. *)
Definition table_mass (keys : list string) (total : Qc)
    (probabilities : dict string dist) : Prop :=
  dict_keys probabilities = keys ∧
  Forall (λ kv, is_accumulator kv.2 ∧
                sum_gene kv.2 = total ∧ sum_trait kv.2 = total) probabilities.

(** *** The hypotheses of a run *)

(** A hypothesis: [(one_gene, two_genes, have_trait)]. *)
Definition hypothesis : Type := gset string * gset string * gset string.

(** The gene-set pairs the two inner loops of [main] go through. *)
Definition gene_pairs (names : gset string) : list (gset string * gset string) :=
  flat_map (λ one_gene, (λ two_genes, (one_gene, two_genes))
                          <$> powerset (names ∖ one_gene)) (powerset names).

(** The hypotheses the loops of [main] reach, in the order they reach them:
    those for which [joint_probability] and [update] are called.  That
    [main] goes through exactly this list is [main_hypotheses] below. *)
Definition hypotheses (people : dict string person_data) : list hypothesis :=
  let names : gset string := list_to_set (dict_keys people) in
  flat_map (λ have_trait,
    match fails_evidence people names have_trait with
    | Ok false => (λ pair, (pair.1, pair.2, have_trait)) <$> gene_pairs names
    | _ => []
    end) (powerset names).

Definition accumulate_hypothesis (people : dict string person_data)
    (probabilities : dict string dist) (h : hypothesis) : result (dict string dist) :=
  accumulate people probabilities h.1.1 h.1.2 h.2.

(** A trait set agrees with the evidence: a person whose trait was observed
    is in it exactly when the observation is [True]. *)
Definition consistent (people : dict string person_data)
    (have_trait : gset string) : Prop :=
  ∀ person entry observed,
    dict_get people person = Ok entry → trait entry = Some observed →
    (person ∈ have_trait ↔ observed = true).

(** The persons observed to have the trait: a hypothesis the evidence admits. *)
Definition observed_trait (people : dict string person_data) : gset string :=
  list_to_set (List.filter (λ person,
    match dict_get people person with
    | Ok entry => bool_decide (trait entry = Some true)
    | Raise _ => false
    end) (dict_keys people)).

(** *** The marginals a run computes *)

(** What [normalize] leaves of the accumulator of one person. *)
Definition normalized (kv : string * dist) : string * dist :=
  (kv.1, {| gene := scale (sum_gene kv.2) (gene kv.2);
            d_trait := scale (sum_trait kv.2) (d_trait kv.2) |}).

(** The value [joint_probability] returns for a hypothesis
    ([joint_probability_steps]). *)
Definition joint_value (people : dict string person_data) (h : hypothesis) : Qc :=
  product ((λ kv, step_factor h.1.1 h.1.2 h.2 kv.1 kv.2) <$> people).

(** The joint probabilities of the hypotheses of [hs] selected by [sel],
    added up in the order of [hs]: what a bucket holds after [update] ran
    on the hypotheses of [hs]. *)
Definition mass (people : dict string person_data) (sel : hypothesis → bool)
    (hs : list hypothesis) : Qc :=
  foldl (λ acc h, if sel h then (acc + joint_value people h)%Qc else acc) 0%Qc hs.

(** The hypotheses in which [person] has [g] copies, and those in which the
    trait of [person] is [t]. *)
Definition has_gene (person : string) (g : Z) (h : hypothesis) : bool :=
  bool_decide (gene_count person h.1.1 h.1.2 = g).
Definition has_trait (person : string) (t : bool) (h : hypothesis) : bool :=
  bool_decide (bool_decide (person ∈ h.2) = t).

(** The accumulator of [person] after the hypotheses of [hs]. *)
Definition accumulated (people : dict string person_data)
    (hs : list hypothesis) (person : string) : dist := {|
  gene := [(2, mass people (has_gene person 2) hs);
           (1, mass people (has_gene person 1) hs);
           (0, mass people (has_gene person 0) hs)];
  d_trait := [(true, mass people (has_trait person true) hs);
              (false, mass people (has_trait person false) hs)]
|}.

(** The distributions of [person] by their definition: the mass of the
    enumerated hypotheses that give [person] the value, over the mass of all
    enumerated hypotheses. *)
Definition posterior (people : dict string person_data) (person : string) : dist :=
  let hs := hypotheses people in
  let total := mass people (λ _, true) hs in
  {| gene := [(2, (mass people (has_gene person 2) hs / total)%Qc);
              (1, (mass people (has_gene person 1) hs / total)%Qc);
              (0, (mass people (has_gene person 0) hs / total)%Qc)];
     d_trait := [(true, (mass people (has_trait person true) hs / total)%Qc);
                 (false, (mass people (has_trait person false) hs / total)%Qc)] |}.

(** *** load_data

    The file and [csv.DictReader] are not modelled: [load_data] takes the
    rows the reader yields, each a dict from the fields of the header to the
    text of the cells of one line. *)

Definition row : Type := dict string string.

(** [text or None]: the empty string is false. *)
Definition or_None (text : string) : option string :=
  if decide (text = "") then None else Some text.

(** The record [load_data] stores for a line. *)
Definition person_of (n m f t : string) : person_data := {|
  name := n;
  mother := or_None m;
  father := or_None f;
  trait := if decide (t = "1") then Some true
           else if decide (t = "0") then Some false else None
|}.

(** The body of the loop of [load_data]. *)
Definition load_row (data : dict string person_data) (r : row)
    : result (dict string person_data) :=
  n ← dict_get r "name";
  m ← dict_get r "mother";
  f ← dict_get r "father";
  t ← dict_get r "trait";
  Ok (dict_set data n (person_of n m f t)).

Definition load_data (rows : list row) : result (dict string person_data) :=
  foldM load_row [] rows.

(** A row of a file whose header has the four fields. *)
Definition csv_row (n m f t : string) : row :=
  [("name", n); ("mother", m); ("father", f); ("trait", t)].

(** The row has the four fields [load_data] reads. *)
Definition complete_row (r : row) : Prop :=
  ∃ n m f t, dict_get r "name" = Ok n ∧ dict_get r "mother" = Ok m ∧
             dict_get r "father" = Ok f ∧ dict_get r "trait" = Ok t.

(** The name of a row, when it has one. *)
Definition row_name (r : row) : option string :=
  match dict_get r "name" with Ok n => Some n | Raise _ => None end.

(** *** Sample pedigrees and tables *)

Definition founder (n : string) (t : option bool) : person_data :=
  {| name := n; mother := None; father := None; trait := t |}.

(** A family of three: Harry is the child of Lily and James. *)
Definition family : dict string person_data :=
  [("Harry", {| name := "Harry"; mother := Some "Lily"; father := Some "James";
                trait := None |});
   ("James", founder "James" (Some true));
   ("Lily", founder "Lily" (Some false))].

(** Harry with a mother and no father. *)
Definition half_family : dict string person_data :=
  [("Harry", {| name := "Harry"; mother := Some "Lily"; father := None;
                trait := None |});
   ("Lily", founder "Lily" None)].

Definition sample_table : dict string dist :=
  [("Harry", {| gene := [(2, float 0.1); (1, float 0.3); (0, float 0.1)];
                d_trait := [(true, float 0.2); (false, float 0.3)] |})].

(** The table [main] starts from, for one person. *)
Definition zero_table : dict string dist := [("Harry", zero_dist)].

(** P(trait) of a founder: the prior-weighted sum of P(trait | g). *)
Definition founder_trait : Qc :=
  (float 0.96 * float 0.01 + float 0.03 * float 0.56 + float 0.01 * float 0.65)%Qc.

(** The distributions of a founder without evidence. *)
Definition founder_dist : dist := {|
  gene := [(2, float 0.01); (1, float 0.03); (0, float 0.96)];
  d_trait := [(true, founder_trait); (false, 1 - founder_trait)%Qc]
|}.

(** ** The arithmetic of the code: binary64

    Python's [float] is IEEE 754 binary64 and the numbers of the code are
    computed in it: every [+ - * /] rounds to nearest, a sum can overflow to
    [inf] and a product can underflow to [0.0].  The module [B64] repeats the
    numeric functions of the code over primitive binary64 floats, operation
    for operation and in the order of the source.  It serves the statements
    that are about the very values the code returns; the exact reading above
    serves those that compare the code with the quantities it computes.
    What does not compute with numbers ([getGene], [powerset], the evidence
    check, the dictionaries) is shared by both readings. *)

Module B64.
Import PrimFloat.
#[local] Set Warnings "-inexact-float".

(** [d[k] += p] *)
Definition dict_iadd {K} `{EqDecision K} (d : dict K float) (k : K) (p : float)
    : result (dict K float) :=
  v ← dict_get d k; Ok (dict_set d k (v + p)%float).

(** [x / y]: a zero divisor of either sign raises; anything else divides,
    possibly to [inf] or [nan]. *)
Definition py_div (x y : float) : result float :=
  if (y =? 0)%float then Raise ZeroDivisionError else Ok (x / y)%float.

(** [sum(l)]: the values are added from the left, starting from the int 0,
    each addition rounded (the compensated summation of CPython 3.12 and
    later is not modelled). *)
Definition py_sum (l : list float) : float := foldl add 0%float l.

(** [a * b] where either operand may be [None]. *)
Definition py_mul (a b : option float) : result float :=
  match a, b with
  | Some x, Some y => Ok (x * y)%float
  | _, _ => Raise TypeError
  end.

(** [x == y] *)
Definition py_eq (x y : float) : bool := (x =? y)%float.

Record probs : Type := {
  P_gene : dict Z float;
  P_trait : dict Z (dict bool float);
  P_mutation : float
}.

Definition PROBS : probs := {|
  P_gene := [(2, 0.01%float); (1, 0.03%float); (0, 0.96%float)];
  P_trait := [(2, [(true, 0.65%float); (false, 0.35%float)]);
              (1, [(true, 0.56%float); (false, 0.44%float)]);
              (0, [(true, 0.01%float); (false, 0.99%float)])];
  P_mutation := 0.01%float
|}.

Record dist : Type := {
  gene : dict Z float;
  d_trait : dict bool float
}.

Definition inherit (parent_gene : Z) (trait : bool) : option float :=
  if parent_gene =? 0 then
    Some (if trait then P_mutation PROBS else 1 - P_mutation PROBS)%float
  else if parent_gene =? 1 then
    Some 0.5%float
  else if parent_gene =? 2 then
    Some (if trait then 1 - P_mutation PROBS else P_mutation PROBS)%float
  else None.

(** [PROBS["trait"][g][t]] *)
Definition PROBS_trait (g : Z) (t : bool) : result float :=
  d ← dict_get (P_trait PROBS) g; dict_get d t.

(** The body of the loop of [joint_probability]. *)
Definition joint_step (people : dict string person_data)
    (one_gene two_genes have_trait : gset string)
    (probability : float) (person : string) : result float :=
  entry ← dict_get people person;
  let mom := mother entry in
  let dad := father entry in
  let personTrait := bool_decide (person ∈ have_trait) in
  let personGene := getGene (Some person) one_gene two_genes in
  if bool_decide (dad = None) && bool_decide (mom = None) then
    pt ← PROBS_trait personGene personTrait;
    pg ← dict_get (P_gene PROBS) personGene;
    Ok (probability * (pt * pg))%float
  else
    let mom_genes := getGene mom one_gene two_genes in
    let dad_genes := getGene dad one_gene two_genes in
    probability ←
      (if personGene =? 0 then
         t ← py_mul (inherit mom_genes false) (inherit dad_genes false);
         Ok (probability * t)%float
       else if personGene =? 1 then
         t1 ← py_mul (inherit mom_genes true) (inherit dad_genes false);
         t2 ← py_mul (inherit mom_genes false) (inherit dad_genes true);
         Ok (probability * (t1 + t2))%float
       else if personGene =? 2 then
         t ← py_mul (inherit mom_genes true) (inherit dad_genes true);
         Ok (probability * t)%float
       else Ok probability);
    pt ← PROBS_trait personGene personTrait;
    Ok (probability * pt)%float.

Definition joint_probability (people : dict string person_data)
    (one_gene two_genes have_trait : gset string) : result float :=
  foldM (joint_step people one_gene two_genes have_trait) 1.0%float (dict_keys people).

Definition update (probabilities : dict string dist)
    (one_gene two_genes have_trait : gset string) (p : float)
    : result (dict string dist) :=
  dict_update_each (λ person entry,
    let personGene := getGene (Some person) one_gene two_genes in
    let personTrait := bool_decide (person ∈ have_trait) in
    g ← dict_iadd (gene entry) personGene p;
    t ← dict_iadd (d_trait entry) personTrait p;
    Ok {| gene := g; d_trait := t |}) probabilities.

(** The body of the loop of [normalize]. *)
Definition normalize_entry (entry : dist) : result dist :=
  let sum_gene := py_sum (dict_values (gene entry)) in
  let sum_trait := py_sum (dict_values (d_trait entry)) in
  t ← dict_update_each (λ _ v, py_div v sum_trait) (d_trait entry);
  g ← dict_update_each (λ _ v, py_div v sum_gene) (gene entry);
  Ok {| gene := g; d_trait := t |}.

Definition normalize (probabilities : dict string dist) : result (dict string dist) :=
  dict_update_each (λ _ entry, normalize_entry entry) probabilities.

(** The accumulators start from the int 0, which the first [+=] turns into
    a float without changing the sum. *)
Definition zero_dist : dist := {|
  gene := [(2, 0%float); (1, 0%float); (0, 0%float)];
  d_trait := [(true, 0%float); (false, 0%float)]
|}.

(** One pass of the innermost loop body of [main]. *)
Definition accumulate (people : dict string person_data)
    (probabilities : dict string dist)
    (one_gene two_genes have_trait : gset string) : result (dict string dist) :=
  p ← joint_probability people one_gene two_genes have_trait;
  update probabilities one_gene two_genes have_trait p.

Definition main (people : dict string person_data) : result (dict string dist) :=
  let probabilities := (λ person, (person, zero_dist)) <$> dict_keys people in
  let names : gset string := list_to_set (dict_keys people) in
  probabilities ←
    foldM (λ probabilities have_trait,
      fails ← fails_evidence people names have_trait;
      if fails : bool then Ok probabilities else
      foldM (λ probabilities one_gene,
        foldM (λ probabilities two_genes,
          accumulate people probabilities one_gene two_genes have_trait)
        probabilities (powerset (names ∖ one_gene)))
      probabilities (powerset names))
    probabilities (powerset names);
  normalize probabilities.

(** *** The quantities of the specification, as binary64 expressions *)

(** The prior P(g), as the literals of the specification. *)
Definition prior (g : Z) : float :=
  if g =? 0 then 0.96%float else if g =? 1 then 0.03%float else 0.01%float.

(** P(trait) of a founder, evaluated as the specification writes it. *)
Definition founder_trait : float :=
  (0.96 * 0.01 + 0.03 * 0.56 + 0.01 * 0.65)%float.

(** [1 - p] *)
Definition complement (p : float) : float := (1 - p)%float.

(** The inheritance calculator of the specification: mutation for no copy,
    0.5 for one copy, 1 - mutation for two copies. *)
Definition inherit_probability (g : Z) : float :=
  if g =? 0 then 0.01%float else if g =? 1 then 0.5%float else (1 - 0.01)%float.

(** Probability that a child has [g] copies, by independent transmission. *)
Definition transmission (g g_mother g_father : Z) : float :=
  let pm := inherit_probability g_mother in
  let pf := inherit_probability g_father in
  if g =? 0 then (complement pm * complement pf)%float
  else if g =? 1 then (pm * complement pf + complement pm * pf)%float
  else (pm * pf)%float.

(** *** Notions the statements use *)

(** The rational number a finite float is. *)
Definition exact (x : float) : option Qc :=
  match FloatOps.Prim2SF x with
  | SpecFloat.S754_zero _ => Some 0%Qc
  | SpecFloat.S754_finite s m e =>
      Some (Q2Qc ((if s then -1 else 1) * inject_Z (Z.pos m) * Qpower 2 e))
  | _ => None
  end.

(** The float [x] is the real number [q] up to rounding: a finite float
    within 1e-15 of [q]. *)
Definition approx (x : float) (q : Qc) : Prop :=
  ∃ v, exact x = Some v ∧ (Qcabs.Qcabs (v - q) ≤ Q2Qc 0.000000000000001)%Qc.



Definition is_accumulator (entry : dist) : Prop :=
  dict_keys (gene entry) = [2; 1; 0] ∧ dict_keys (d_trait entry) = [true; false].

Definition is_table (probabilities : dict string dist) : Prop :=
  is_dict probabilities ∧
  ∀ person entry, (person, entry) ∈ probabilities → is_accumulator entry.

Definition sum_gene (entry : dist) : float := py_sum (dict_values (gene entry)).
Definition sum_trait (entry : dist) : float := py_sum (dict_values (d_trait entry)).

(** Every bucket divided by [s]. *)
Definition scale {K} (s : float) (d : dict K float) : dict K float :=
  (λ kv, (kv.1, kv.2 / s)%float) <$> d.

(** What [normalize] leaves of the accumulator of one person. *)
Definition normalized (kv : string * dist) : string * dist :=
  (kv.1, {| gene := scale (sum_gene kv.2) (gene kv.2);
            d_trait := scale (sum_trait kv.2) (d_trait kv.2) |}).

(** What [update] does to the accumulator of one person. *)
Definition bump (entry : dist) (g : Z) (t : bool) (p : float) : result dist :=
  g' ← dict_iadd (gene entry) g p;
  t' ← dict_iadd (d_trait entry) t p;
  Ok {| gene := g'; d_trait := t' |}.

(** What [joint_probability] computes on a population of one founder with
    [g] copies and trait [t]. *)
Definition founder_value (g : Z) (t : bool) : result float :=
  pt ← PROBS_trait g t;
  pg ← dict_get (P_gene PROBS) g;
  Ok (1.0 * (pt * pg))%float.

(** One pass of the loops of [main] on a population of one founder: the
    joint probability of the hypothesis, then the update of the founder. *)
Definition founder_pass (acc : dist) (g : Z) (t : bool) : result dist :=
  p ← founder_value g t; bump acc g t p.

Definition accumulate_hypothesis (people : dict string person_data)
    (probabilities : dict string dist) (h : hypothesis) : result (dict string dist) :=
  accumulate people probabilities h.1.1 h.1.2 h.2.

(** *** Sample tables *)

(** The distributions the run returns for a founder without evidence. *)
Definition founder_dist : dist := {|
  gene := [(2, 0.01%float); (1, 0.030000000000000002%float); (0, 0.96%float)];
  d_trait := [(true, 0.032900000000000006%float); (false, 0.9671%float)]
|}.



Definition sample_table : dict string dist :=
  [("Harry", {| gene := [(2, 0.1%float); (1, 0.3%float); (0, 0.1%float)];
                d_trait := [(true, 0.2%float); (false, 0.3%float)] |})].

End B64.

(** *** Proof automation *)

(** Equality of two closed rationals, by computation. *)
Ltac qc_compute := apply Qc_is_canon; vm_compute; reflexivity.

(** A closed decidable proposition, by computation. *)
Ltac by_decide := refine (bool_decide_unpack _ _); vm_compute; exact I.

(** Equality of computed tables, bucket by bucket. *)
Ltac qc_struct :=
  lazymatch goal with
  | |- @eq Qc _ _ => apply Qc_is_canon; vm_compute; reflexivity
  | |- _ => first [reflexivity | progress f_equal; qc_struct]
  end.

(** Lookups and updates at literal keys. *)
Ltac dict_simpl :=
  cbn [gene d_trait dict_get dict_set];
  repeat first [rewrite decide_True by done | rewrite decide_False by done].

(** Equality of tables whose buckets are equal as rationals. *)
Ltac qc_ring_struct :=
  lazymatch goal with
  | |- @eq Qc _ _ => ring
  | |- _ => first [reflexivity | progress f_equal; qc_ring_struct]
  end.

(** Decisions between literals. *)
Ltac bool_decide_simpl :=
  repeat first [rewrite bool_decide_eq_true_2 by done
               | rewrite bool_decide_eq_false_2 by done].

(** A closed float is a given rational up to rounding. *)
Ltac b64_approx := eexists; split; [vm_compute; reflexivity | by_decide].

(** * Properties *)

(** ** Dictionaries: lookups and the in-place loop *)

Lemma bind_Ok {A B} (f : A → result B) (a : A) : (Ok a ≫= f) = f a.
Proof. reflexivity. Qed.

Lemma bind_Raise {A B} (f : A → result B) (e : exn) : (Raise e ≫= f) = Raise e.
Proof. reflexivity. Qed.

Section dict_facts.
Context {K V : Type} `{EqDecision K}.
Implicit Types (d : dict K V) (k : K) (v : V).

Lemma dict_get_key d k : k ∈ dict_keys d → ∃ v, dict_get d k = Ok v.
Proof.
  induction d as [|[k' v'] d IH]; simpl.
  - by intros ?%elem_of_nil.
  - intros Hk. destruct (decide (k' = k)); [by eexists|].
    apply IH. apply elem_of_cons in Hk as [->|]; done.
Qed.

Lemma dict_get_elem d k v : dict_get d k = Ok v → (k, v) ∈ d.
Proof.
  induction d as [|[k' v'] d IH]; simpl; [done|].
  destruct (decide (k' = k)) as [->|].
  - intros [= ->]. apply elem_of_cons; by left.
  - intros. apply elem_of_cons; right; auto.
Qed.

Lemma dict_get_app_fresh d1 d2 k :
  k ∉ dict_keys d1 → dict_get (d1 ++ d2) k = dict_get d2 k.
Proof.
  induction d1 as [|[k' v'] d1 IH]; simpl; [done|].
  intros Hk. apply not_elem_of_cons in Hk as [? ?].
  destruct (decide (k' = k)); [congruence|auto].
Qed.

Lemma dict_set_app_fresh d1 d2 k v :
  k ∉ dict_keys d1 → dict_set (d1 ++ d2) k v = d1 ++ dict_set d2 k v.
Proof.
  induction d1 as [|[k' v'] d1 IH]; simpl; [done|].
  intros Hk. apply not_elem_of_cons in Hk as [? ?].
  destruct (decide (k' = k)); [congruence|]. by rewrite IH.
Qed.

(** On a dict the loop [for k in d: d[k] = f(k, d[k])] rewrites the items
    one after the other. *)
Lemma dict_update_each_items (f : K → V → result V) d :
  is_dict d →
  dict_update_each f d = forM (λ kv, v' ← f kv.1 kv.2; Ok (kv.1, v')) d.
Proof.
  unfold dict_update_each, is_dict.
  enough (∀ d2 d1, NoDup (dict_keys (d1 ++ d2)) →
    foldM (λ d k, v ← dict_get d k; v' ← f k v; Ok (dict_set d k v'))
      (d1 ++ d2) (dict_keys d2)
    = d2' ← forM (λ kv, v' ← f kv.1 kv.2; Ok (kv.1, v')) d2; Ok (d1 ++ d2')) as H.
  { intros Hd. specialize (H d [] Hd). simpl in H. rewrite H.
    by destruct (forM _ d). }
  clear d. intros d2. induction d2 as [|[k v] d2 IH]; intros d1 Hd; simpl.
  - by rewrite app_nil_r.
  - unfold dict_keys in Hd. rewrite fmap_app in Hd. simpl in Hd.
    assert (k ∉ dict_keys d1) as Hk.
    { apply NoDup_app in Hd as (_ & Hd & _). intros Hin.
      apply (Hd k Hin). apply elem_of_cons; by left. }
    rewrite dict_get_app_fresh by done. simpl.
    rewrite decide_True by done. simpl.
    destruct (f k v) as [v'|e]; simpl; [|done].
    rewrite dict_set_app_fresh by done. simpl. rewrite decide_True by done.
    rewrite (cons_middle (k, v') d1 d2), app_assoc, IH.
    + destruct (forM _ d2); simpl; [|done]. by rewrite <-app_assoc.
    + unfold dict_keys. rewrite !fmap_app. simpl. by rewrite <-app_assoc.
Qed.
End dict_facts.

(** ** The inheritance calculator *)

Lemma getGene_count person one_gene two_genes :
  getGene (Some person) one_gene two_genes = gene_count person one_gene two_genes.
Proof.
  unfold getGene, gene_count, py_in.
  destruct (decide (person ∈ one_gene)).
  - by rewrite bool_decide_eq_true_2.
  - rewrite bool_decide_eq_false_2 by done.
    destruct (decide (person ∈ two_genes)).
    + by rewrite bool_decide_eq_true_2.
    + by rewrite bool_decide_eq_false_2.
Qed.

Lemma getGene_None one_gene two_genes : getGene None one_gene two_genes = 0.
Proof. reflexivity. Qed.

Lemma getGene_range x one_gene two_genes :
  getGene x one_gene two_genes = 0 ∨ getGene x one_gene two_genes = 1
  ∨ getGene x one_gene two_genes = 2.
Proof.
  unfold getGene. destruct (py_in x one_gene); [auto|].
  destruct (py_in x two_genes); auto.
Qed.

Lemma gene_count_range person one_gene two_genes :
  gene_count person one_gene two_genes = 0 ∨ gene_count person one_gene two_genes = 1
  ∨ gene_count person one_gene two_genes = 2.
Proof. rewrite <-getGene_count. apply getGene_range. Qed.

Lemma inherit_true g :
  g = 0 ∨ g = 1 ∨ g = 2 → inherit g true = Some (inherit_probability g).
Proof. intros [->|[->| ->]]; unfold inherit; simpl; f_equal; qc_compute. Qed.

Lemma inherit_false g :
  g = 0 ∨ g = 1 ∨ g = 2 → inherit g false = Some (1 - inherit_probability g)%Qc.
Proof. intros [->|[->| ->]]; unfold inherit; simpl; f_equal; qc_compute. Qed.

Lemma PROBS_trait_given g t :
  g = 0 ∨ g = 1 ∨ g = 2 → PROBS_trait g t = Ok (trait_given g t).
Proof.
  intros [->|[->| ->]]; destruct t; unfold PROBS_trait; simpl; f_equal; qc_compute.
Qed.

Lemma PROBS_gene_prior g :
  g = 0 ∨ g = 1 ∨ g = 2 → dict_get (P_gene PROBS) g = Ok (prior g).
Proof. intros [->|[->| ->]]; simpl; f_equal; qc_compute. Qed.

(** C3: the inheritance calculator (the code's [inherit] with its second
    argument [True]) returns the mutation probability 0.01 for a parent with
    no copy, 0.5 for a parent with one copy, whatever the second argument and
    the mutation probability, and 1 - mutation for a parent with two copies. *)
Theorem inherit_values :
  P_mutation PROBS = float 0.01 ∧
  inherit 0 true = Some (P_mutation PROBS) ∧
  inherit 1 true = Some (float 0.5) ∧ inherit 1 false = Some (float 0.5) ∧
  inherit 2 true = Some (1 - P_mutation PROBS)%Qc ∧
  inherit 0 true = Some (inherit_probability 0) ∧
  inherit 1 true = Some (inherit_probability 1) ∧
  inherit 2 true = Some (inherit_probability 2).
Proof. repeat split; by apply inherit_true; auto. Qed.

(** C9, as the specification states it, fails in the arithmetic of the
    code: for a parent with two copies [inherit(2, False)] is the literal
    0.01 while [1 - inherit(2, True)] is [1 - (1 - 0.01)], which binary64
    rounds to 0.010000000000000009; and the product the evaluator takes for
    a child with no copy of a mother with two copies and a father with none,
    0.01 * 0.99, is not the float (1 - inherit(2)) * (1 - inherit(0)) of the
    specification. *)
Lemma inherit_two_copies_rounds :
  ∃ p_true p_false code : PrimFloat.float,
    B64.inherit 2 true = Some p_true ∧ B64.inherit 2 false = Some p_false ∧
    B64.py_eq p_false (B64.complement p_true) = false ∧
    B64.py_mul (B64.inherit 2 false) (B64.inherit 0 false) = Ok code ∧
    B64.py_eq code (B64.transmission 0 2 0) = false.
Proof. do 3 eexists. repeat split; vm_compute; reflexivity. Qed.

(** C9, amended: for a parent gene count in 0, 1, 2, in exact arithmetic
    the [False] branch of [inherit] is the complement of the [True] branch,
    which is the [inherit_probability] of the specification, so the product
    the evaluator takes for a child with no copy is
    (1 - inherit(g_mother)) * (1 - inherit(g_father)).  In binary64 the
    [True] branch is the float of the specification; the [False] branch is
    the float complement of the [True] branch for the counts 0 and 1, and
    for the count 2 it is the [True] branch that is the float complement of
    the [False] branch.  The product of the evaluator is the float of the
    specification when neither parent has two copies, and both are within
    1e-15 of the exact product in every case. *)
Theorem inherit_complement (g_mother g_father : Z) :
  g_mother = 0 ∨ g_mother = 1 ∨ g_mother = 2 →
  g_father = 0 ∨ g_father = 1 ∨ g_father = 2 →
  (inherit g_mother true = Some (inherit_probability g_mother) ∧
   inherit g_mother false = Some (1 - inherit_probability g_mother)%Qc ∧
   inherit g_father true = Some (inherit_probability g_father) ∧
   inherit g_father false = Some (1 - inherit_probability g_father)%Qc ∧
   py_mul (inherit g_mother false) (inherit g_father false)
   = Ok ((1 - inherit_probability g_mother) * (1 - inherit_probability g_father))%Qc) ∧
  (∃ pm pm' pf pf' code : PrimFloat.float,
     B64.inherit g_mother true = Some pm ∧ B64.inherit g_mother false = Some pm' ∧
     B64.inherit g_father true = Some pf ∧ B64.inherit g_father false = Some pf' ∧
     pm = B64.inherit_probability g_mother ∧ pf = B64.inherit_probability g_father ∧
     (g_mother ≠ 2 → pm' = B64.complement pm) ∧
     (g_mother = 2 → pm = B64.complement pm') ∧
     (g_father ≠ 2 → pf' = B64.complement pf) ∧
     (g_father = 2 → pf = B64.complement pf') ∧
     B64.approx pm' (1 - inherit_probability g_mother) ∧
     B64.approx (B64.complement pm) (1 - inherit_probability g_mother) ∧
     B64.approx pf' (1 - inherit_probability g_father) ∧
     B64.approx (B64.complement pf) (1 - inherit_probability g_father) ∧
     B64.py_mul (B64.inherit g_mother false) (B64.inherit g_father false) = Ok code ∧
     (g_mother ≠ 2 → g_father ≠ 2 → code = B64.transmission 0 g_mother g_father) ∧
     B64.approx code
       ((1 - inherit_probability g_mother) * (1 - inherit_probability g_father)) ∧
     B64.approx (B64.transmission 0 g_mother g_father)
       ((1 - inherit_probability g_mother) * (1 - inherit_probability g_father))).
Proof.
  intros Hm Hf. split.
  { rewrite !inherit_true, !inherit_false by done. done. }
  destruct Hm as [->|[->| ->]], Hf as [->|[->| ->]];
    do 5 eexists;
    repeat match goal with
    | |- _ ∧ _ => split
    | |- B64.approx _ _ => b64_approx
    | |- _ → _ => intros; try done
    | |- _ = _ => reflexivity
    end.
Qed.

Lemma inherit_complement_witness :
  (inherit 2 true = Some (inherit_probability 2) ∧
   inherit 2 false = Some (1 - inherit_probability 2)%Qc ∧
   inherit 0 true = Some (inherit_probability 0) ∧
   inherit 0 false = Some (1 - inherit_probability 0)%Qc ∧
   py_mul (inherit 2 false) (inherit 0 false)
   = Ok ((1 - inherit_probability 2) * (1 - inherit_probability 0))%Qc) ∧
  (∃ pm pm' pf pf' code : PrimFloat.float,
     B64.inherit 2 true = Some pm ∧ B64.inherit 2 false = Some pm' ∧
     B64.inherit 0 true = Some pf ∧ B64.inherit 0 false = Some pf' ∧
     pm = B64.inherit_probability 2 ∧ pf = B64.inherit_probability 0 ∧
     (2 ≠ 2 → pm' = B64.complement pm) ∧
     (2 = 2 → pm = B64.complement pm') ∧
     (0 ≠ 2 → pf' = B64.complement pf) ∧
     (0 = 2 → pf = B64.complement pf') ∧
     B64.approx pm' (1 - inherit_probability 2) ∧
     B64.approx (B64.complement pm) (1 - inherit_probability 2) ∧
     B64.approx pf' (1 - inherit_probability 0) ∧
     B64.approx (B64.complement pf) (1 - inherit_probability 0) ∧
     B64.py_mul (B64.inherit 2 false) (B64.inherit 0 false) = Ok code ∧
     (2 ≠ 2 → 0 ≠ 2 → code = B64.transmission 0 2 0) ∧
     B64.approx code ((1 - inherit_probability 2) * (1 - inherit_probability 0)) ∧
     B64.approx (B64.transmission 0 2 0)
       ((1 - inherit_probability 2) * (1 - inherit_probability 0))).
Proof.
  exact (inherit_complement 2 0 (or_intror (or_intror eq_refl)) (or_introl eq_refl)).
Defined.

(** ** The joint probability evaluator *)

Lemma product_cons x l : product (x :: l) = (x * product l)%Qc.
Proof. reflexivity. Qed.

Lemma product_app l1 l2 : product (l1 ++ l2) = (product l1 * product l2)%Qc.
Proof.
  induction l1 as [|x l1 IH]; [by rewrite Qcmult_1_l|].
  cbn [app]. rewrite !product_cons, IH. ring.
Qed.

Lemma transmission_step prob g gm gf :
  g = 0 ∨ g = 1 ∨ g = 2 → gm = 0 ∨ gm = 1 ∨ gm = 2 → gf = 0 ∨ gf = 1 ∨ gf = 2 →
  (if g =? 0 then
     t ← py_mul (inherit gm false) (inherit gf false); Ok (prob * t)%Qc
   else if g =? 1 then
     t1 ← py_mul (inherit gm true) (inherit gf false);
     t2 ← py_mul (inherit gm false) (inherit gf true);
     Ok (prob * (t1 + t2))%Qc
   else if g =? 2 then
     t ← py_mul (inherit gm true) (inherit gf true); Ok (prob * t)%Qc
   else Ok prob)
  = Ok (prob * transmission g gm gf)%Qc.
Proof.
  intros Hg Hm Hf. rewrite !inherit_true, !inherit_false by done.
  unfold transmission. by destruct Hg as [->|[->| ->]].
Qed.

Lemma joint_step_factor people one_gene two_genes have_trait prob person entry :
  dict_get people person = Ok entry →
  joint_step people one_gene two_genes have_trait prob person
  = Ok (prob * step_factor one_gene two_genes have_trait person entry)%Qc.
Proof.
  intros Hget. unfold joint_step, step_factor. rewrite Hget, bind_Ok.
  cbv beta zeta. rewrite getGene_count.
  pose proof (gene_count_range person one_gene two_genes) as Hg.
  rewrite PROBS_trait_given by done.
  destruct (mother entry) as [m|] eqn:Hm, (father entry) as [f|] eqn:Hf;
    cbn [bool_decide decide_rel andb option_eq_None_dec option_eq_dec].
  all: try (match goal with
    | |- context [py_mul (inherit (getGene ?mom _ _) _) (inherit (getGene ?dad _ _) _)] =>
        rewrite (transmission_step prob _ _ _ Hg
                   (getGene_range mom one_gene two_genes)
                   (getGene_range dad one_gene two_genes))
    end; rewrite !bind_Ok; f_equal; ring).
  rewrite PROBS_gene_prior by done. rewrite !bind_Ok. f_equal. ring.
Qed.

Lemma joint_probability_fold people one_gene two_genes have_trait :
  ∀ d2 d1 prob, people = d1 ++ d2 → is_dict people →
    foldM (joint_step people one_gene two_genes have_trait) prob (dict_keys d2)
    = Ok (prob * product ((λ kv, step_factor one_gene two_genes have_trait kv.1 kv.2)
                            <$> d2))%Qc.
Proof.
  intros d2. induction d2 as [|[k e] d2 IH]; intros d1 prob -> Hd.
  - change (Ok prob = Ok (prob * 1)%Qc). by rewrite Qcmult_1_r.
  - assert (k ∉ dict_keys d1) as Hk.
    { unfold is_dict, dict_keys in Hd. rewrite fmap_app in Hd.
      apply NoDup_app in Hd as (_ & Hd & _). intros Hin.
      apply (Hd k Hin). apply elem_of_cons; by left. }
    rewrite fmap_cons, product_cons. cbn [dict_keys fmap list_fmap foldM fst].
    rewrite (joint_step_factor _ _ _ _ _ _ e), bind_Ok.
    + fold (dict_keys d2). rewrite (IH (d1 ++ [(k, e)])).
      * f_equal. cbn [fst snd]. ring.
      * by rewrite <-app_assoc.
      * done.
    + rewrite dict_get_app_fresh by done. cbn [dict_get]. by rewrite decide_True.
Qed.

Lemma joint_probability_steps people one_gene two_genes have_trait :
  is_dict people →
  joint_probability people one_gene two_genes have_trait
  = Ok (product ((λ kv, step_factor one_gene two_genes have_trait kv.1 kv.2)
                   <$> people)).
Proof.
  intros Hd. unfold joint_probability.
  rewrite (joint_probability_fold _ _ _ _ people []) by done.
  f_equal. replace (float 1.0) with 1%Qc by qc_compute. apply Qcmult_1_l.
Qed.

(** [joint_probability] raises no exception, whatever the pedigree. *)
Lemma joint_probability_total people one_gene two_genes have_trait :
  ∃ q, joint_probability people one_gene two_genes have_trait = Ok q.
Proof.
  unfold joint_probability. generalize (float 1.0).
  assert (∀ k, k ∈ dict_keys people → k ∈ dict_keys people) as Hsub by done.
  revert Hsub. generalize (dict_keys people) at 1 3. intros l.
  induction l as [|k l IH]; intros Hsub prob; simpl; [by eexists|].
  destruct (dict_get_key people k) as [e He].
  { apply Hsub, elem_of_cons; by left. }
  rewrite (joint_step_factor _ _ _ _ _ _ e He). simpl.
  apply IH. intros k' Hk'. apply Hsub, elem_of_cons; by right.
Qed.

(** C1: on a pedigree in which every person has both parents or neither,
    and for disjoint [one_gene] and [two_genes], [joint_probability] returns
    the product, over the persons of the population taken once each, of the
    factor of the specification: prior times P(t|g) for a founder, the
    transmission probability of the child's gene count times P(t|g) for a
    person with both parents. *)
Theorem joint_probability_product people one_gene two_genes have_trait :
  is_dict people →
  (∀ person entry, (person, entry) ∈ people →
     (mother entry = None ↔ father entry = None)) →
  one_gene ## two_genes →
  ∃ factors : list Qc,
    Forall2 (λ kv f, person_factor one_gene two_genes have_trait kv.1 kv.2 = Some f)
            people factors ∧
    joint_probability people one_gene two_genes have_trait = Ok (product factors).
Proof.
  intros Hd Hparents _.
  exists ((λ kv, step_factor one_gene two_genes have_trait kv.1 kv.2) <$> people).
  split; [|by apply joint_probability_steps].
  clear Hd. induction people as [|[k e] people IH]; simpl; constructor.
  - simpl. unfold person_factor, step_factor.
    cbn [fst snd].
    assert (mother e = None ↔ father e = None) as Hke.
    { apply (Hparents k). apply elem_of_cons; by left. }
    destruct (mother e) as [m|] eqn:Hm, (father e) as [f|] eqn:Hf.
    + by rewrite !getGene_count.
    + exfalso. by assert (Some m = None) as [=] by by apply Hke.
    + exfalso. by assert (Some f = None) as [=] by by apply Hke.
    + done.
  - apply IH. intros p e' Hin. apply (Hparents p). apply elem_of_cons; by right.
Qed.

Lemma family_is_dict : is_dict family.
Proof. by_decide. Defined.

Lemma family_parents person entry :
  (person, entry) ∈ family → (mother entry = None ↔ father entry = None).
Proof.
  unfold family. rewrite !elem_of_cons, elem_of_nil.
  intros [[= -> ->]|[[= -> ->]|[[= -> ->]|[]]]]; simpl; split; done.
Defined.

Example joint_probability_family :
  joint_probability family {["Harry"]} {["James"]} {["James"]}
  = Ok (float 0.0026643247488).
Proof.
  assert (∀ x y : Qc, x = y → Ok x = Ok y) as H by (by intros ?? ->).
  vm_compute. apply H. qc_compute.
Qed.

Lemma joint_probability_product_witness :
  ∃ factors : list Qc,
    Forall2 (λ kv f, person_factor {["Harry"]} {["James"]} {["James"]} kv.1 kv.2 = Some f)
            family factors ∧
    joint_probability family {["Harry"]} {["James"]} {["James"]} = Ok (product factors).
Proof.
  apply (joint_probability_product family {["Harry"]} {["James"]} {["James"]}).
  - exact family_is_dict.
  - exact family_parents.
  - by_decide.
Defined.

(** C10: a person with exactly one parent reference makes
    [joint_probability] raise nothing: on a population with such a person it
    returns the product of the factors of the persons, and the loop body
    takes for that person the branch of a person with parents, where the
    absent parent, [None], being in neither set, counts as a parent with no
    copy of the gene: the factor of the person is the transmission
    probability from the gene count of the present parent and the count 0,
    times P(t|g). *)
Theorem joint_probability_half_parentage before after one_gene two_genes have_trait
    person entry :
  is_dict (before ++ (person, entry) :: after) →
  (mother entry = None ∧ father entry ≠ None) ∨
  (mother entry ≠ None ∧ father entry = None) →
  let people := before ++ (person, entry) :: after in
  let g := gene_count person one_gene two_genes in
  let t := bool_decide (person ∈ have_trait) in
  let others l :=
    product ((λ kv, step_factor one_gene two_genes have_trait kv.1 kv.2) <$> l) in
  getGene None one_gene two_genes = 0 ∧
  (∀ m, mother entry = Some m →
     joint_probability people one_gene two_genes have_trait
     = Ok (others before
           * (transmission g (gene_count m one_gene two_genes) 0 * trait_given g t)
           * others after)%Qc ∧
     ∀ prob, joint_step people one_gene two_genes have_trait prob person
             = Ok (prob * transmission g (gene_count m one_gene two_genes) 0
                   * trait_given g t)%Qc) ∧
  (∀ f, father entry = Some f →
     joint_probability people one_gene two_genes have_trait
     = Ok (others before
           * (transmission g 0 (gene_count f one_gene two_genes) * trait_given g t)
           * others after)%Qc ∧
     ∀ prob, joint_step people one_gene two_genes have_trait prob person
             = Ok (prob * transmission g 0 (gene_count f one_gene two_genes)
                   * trait_given g t)%Qc).
Proof.
  intros Hd Hhalf people g t others. split; [reflexivity|].
  assert (dict_get people person = Ok entry) as Hget.
  { unfold people. rewrite dict_get_app_fresh.
    - cbn [dict_get]. by rewrite decide_True.
    - unfold is_dict, dict_keys in Hd. rewrite fmap_app in Hd.
      apply NoDup_app in Hd as (_ & Hd & _). intros Hin.
      apply (Hd person Hin). apply elem_of_cons; by left. }
  assert (joint_probability people one_gene two_genes have_trait
          = Ok (others before
                * step_factor one_gene two_genes have_trait person entry
                * others after)%Qc) as Hjoint.
  { rewrite joint_probability_steps by done. unfold people, others.
    rewrite fmap_app, product_app, fmap_cons, product_cons. cbn [fst snd].
    f_equal. ring. }
  split.
  - intros m Hm. rewrite Hm in Hhalf. destruct Hhalf as [[[=] _]|[_ Hf]].
    assert (step_factor one_gene two_genes have_trait person entry
            = (transmission g (gene_count m one_gene two_genes) 0 * trait_given g t)%Qc)
      as Hfactor.
    { unfold step_factor. by rewrite Hm, Hf, getGene_count, getGene_None. }
    split; [by rewrite Hjoint, Hfactor|].
    intros prob. rewrite (joint_step_factor _ _ _ _ _ _ entry Hget), Hfactor.
    f_equal. ring.
  - intros f Hf. rewrite Hf in Hhalf. destruct Hhalf as [[Hm _]|[_ [=]]].
    assert (step_factor one_gene two_genes have_trait person entry
            = (transmission g 0 (gene_count f one_gene two_genes) * trait_given g t)%Qc)
      as Hfactor.
    { unfold step_factor. by rewrite Hm, Hf, getGene_count, getGene_None. }
    split; [by rewrite Hjoint, Hfactor|].
    intros prob. rewrite (joint_step_factor _ _ _ _ _ _ entry Hget), Hfactor.
    f_equal. ring.
Qed.

Lemma half_family_is_dict : is_dict half_family.
Proof. by_decide. Defined.

Lemma joint_probability_half_parentage_witness :
  is_dict half_family ∧
  joint_probability half_family {["Lily"]} ∅ ∅
  = Ok (product []
        * (transmission (gene_count "Harry" {["Lily"]} ∅)
                        (gene_count "Lily" {["Lily"]} ∅) 0
           * trait_given (gene_count "Harry" {["Lily"]} ∅)
                         (bool_decide ("Harry" ∈ (∅ : gset string))))
        * product [step_factor {["Lily"]} ∅ ∅ "Lily" (founder "Lily" None)])%Qc ∧
  joint_probability half_family {["Lily"]} ∅ ∅ = Ok (float 0.00646866).
Proof.
  split; [exact half_family_is_dict|].
  destruct (joint_probability_half_parentage [] [("Lily", founder "Lily" None)]
              {["Lily"]} ∅ ∅ "Harry"
              {| name := "Harry"; mother := Some "Lily"; father := None;
                 trait := None |} half_family_is_dict
              (or_intror (conj (λ H : Some "Lily" = None, eq_ind (Some "Lily")
                 (λ o, match o with Some _ => True | None => False end) I None H)
                 eq_refl)))
    as (_ & Hm & _).
  destruct (Hm "Lily" eq_refl) as [Hjoint _].
  split; [exact Hjoint|].
  assert (∀ x y : Qc, x = y → Ok x = Ok y) as H by (by intros ?? ->).
  vm_compute. apply H. qc_compute.
Defined.

(** ** The normalizer *)

Lemma forM_Ok {A B} (f : A → result B) (g : A → B) l :
  (∀ x, x ∈ l → f x = Ok (g x)) → forM f l = Ok (g <$> l).
Proof.
  induction l as [|x l IH]; intros Hf; [done|].
  cbn [forM]. rewrite Hf, bind_Ok by (apply elem_of_cons; by left).
  rewrite IH; [done|]. intros y Hy. apply Hf, elem_of_cons; by right.
Qed.

Lemma forM_Raise {A B} (f : A → result B) e l x :
  x ∈ l → f x = Raise e → (∀ y e', y ∈ l → f y = Raise e' → e' = e) →
  forM f l = Raise e.
Proof.
  induction l as [|y l IH]; intros Hx Hfx Hall; [by apply elem_of_nil in Hx|].
  cbn [forM]. destruct (f y) as [b|e'] eqn:Hfy.
  - rewrite bind_Ok. apply elem_of_cons in Hx as [->|Hx]; [congruence|].
    rewrite IH; [done..|]. intros z e' Hz. apply Hall, elem_of_cons; by right.
  - rewrite bind_Raise. f_equal. apply (Hall y); [apply elem_of_cons; by left|done].
Qed.

Lemma scale_buckets {K} `{EqDecision K} (s : Qc) (d : dict K Qc) :
  is_dict d → s ≠ 0%Qc →
  dict_update_each (λ _ v, py_div v s) d = Ok (scale s d).
Proof.
  intros Hd Hs. rewrite dict_update_each_items by done.
  apply forM_Ok. intros [k v] _. cbn [fst snd]. unfold py_div.
  by rewrite decide_False.
Qed.

Lemma scale_buckets_zero {K} `{EqDecision K} (d : dict K Qc) :
  is_dict d → d ≠ [] →
  dict_update_each (λ _ v, py_div v 0%Qc) d = Raise ZeroDivisionError.
Proof.
  intros Hd Hne. rewrite dict_update_each_items by done.
  destruct d as [|[k v] d]; [done|]. reflexivity.
Qed.

Lemma py_sum_scale {K} (s : Qc) (d : dict K Qc) :
  py_sum (dict_values (scale s d)) = (py_sum (dict_values d) / s)%Qc.
Proof.
  unfold py_sum, dict_values, scale.
  assert (∀ a, foldl Qcplus (a / s)%Qc ((λ kv, (kv.1, kv.2 / s)%Qc) <$> d).*2
               = (foldl Qcplus a d.*2 / s)%Qc) as H.
  { induction d as [|[k v] d IH]; intros a; [done|].
    cbn [fmap list_fmap foldl fst snd].
    replace (a / s + v / s)%Qc with ((a + v) / s)%Qc by (unfold Qcdiv; ring).
    apply IH. }
  rewrite <-H. f_equal. unfold Qcdiv. ring.
Qed.

Lemma py_sum_scale_one {K} (d : dict K Qc) :
  py_sum (dict_values d) ≠ 0%Qc →
  py_sum (dict_values (scale (py_sum (dict_values d)) d)) = 1%Qc.
Proof. intros Hs. rewrite py_sum_scale. unfold Qcdiv. by apply Qcmult_inv_r. Qed.

Lemma dict_keys_scale {K} (s : Qc) (d : dict K Qc) :
  dict_keys (scale s d) = dict_keys d.
Proof.
  unfold dict_keys, scale. induction d as [|[k v] d IH]; [done|].
  cbn [fmap list_fmap fst]. f_equal. apply IH.
Qed.

Lemma accumulator_dicts entry :
  is_accumulator entry →
  is_dict (gene entry) ∧ is_dict (d_trait entry) ∧
  gene entry ≠ [] ∧ d_trait entry ≠ [].
Proof.
  intros [Hg Ht]. unfold is_dict. rewrite Hg, Ht.
  split; [by_decide|]. split; [by_decide|].
  split; intros E; rewrite E in *; discriminate.
Qed.

Lemma normalize_entry_Ok entry :
  is_accumulator entry → sum_gene entry ≠ 0%Qc → sum_trait entry ≠ 0%Qc →
  normalize_entry entry
  = Ok {| gene := scale (sum_gene entry) (gene entry);
          d_trait := scale (sum_trait entry) (d_trait entry) |}.
Proof.
  intros (Hg & Ht & _)%accumulator_dicts Hsg Hst. unfold normalize_entry.
  fold (sum_gene entry) (sum_trait entry).
  by rewrite !scale_buckets.
Qed.

Lemma normalize_entry_zero entry :
  is_accumulator entry → sum_gene entry = 0%Qc ∨ sum_trait entry = 0%Qc →
  normalize_entry entry = Raise ZeroDivisionError.
Proof.
  intros (Hg & Ht & Hgne & Htne)%accumulator_dicts Hzero. unfold normalize_entry.
  fold (sum_gene entry) (sum_trait entry).
  destruct (decide (sum_trait entry = 0%Qc)) as [->|Hst].
  - by rewrite scale_buckets_zero.
  - rewrite (scale_buckets (sum_trait entry) (d_trait entry)), bind_Ok by done.
    destruct Hzero as [->|]; [|done]. by rewrite scale_buckets_zero.
Qed.

Lemma normalize_entry_exn entry e :
  is_accumulator entry → normalize_entry entry = Raise e → e = ZeroDivisionError.
Proof.
  intros Hacc Hraise.
  destruct (decide (sum_gene entry = 0%Qc)) as [Hsg|Hsg].
  { rewrite normalize_entry_zero in Hraise by auto. congruence. }
  destruct (decide (sum_trait entry = 0%Qc)) as [Hst|Hst].
  { rewrite normalize_entry_zero in Hraise by auto. congruence. }
  by rewrite normalize_entry_Ok in Hraise.
Qed.

Lemma normalize_items probabilities :
  is_dict probabilities →
  normalize probabilities
  = forM (λ kv, entry ← normalize_entry kv.2; Ok (kv.1, entry)) probabilities.
Proof. intros Hd. unfold normalize. by rewrite dict_update_each_items. Qed.


Lemma sample_table_is_table : is_table sample_table.
Proof.
  split; [by_decide|]. intros person entry.
  unfold sample_table. rewrite elem_of_cons, elem_of_nil.
  intros [[= -> ->]|[]]. by split.
Defined.

(** *** In binary64 *)









Lemma zero_table_is_table : is_table zero_table.
Proof.
  split; [by_decide|]. intros person entry.
  unfold zero_table. rewrite elem_of_cons, elem_of_nil.
  intros [[= -> ->]|[]]. by split.
Defined.

(** C6, as the specification states it, fails: on a table whose sums are
    zero [normalize] makes no check and reports no error of its own; the
    division raises [ZeroDivisionError], which nothing catches. *)
Lemma normalize_zero_table_unhandled :
  is_table zero_table ∧
  sum_gene zero_dist = 0%Qc ∧ sum_trait zero_dist = 0%Qc ∧
  normalize zero_table = Raise ZeroDivisionError.
Proof. split; [exact zero_table_is_table|]. repeat split; reflexivity. Qed.

(** C6, amended: when the sum of the gene-count buckets or of the trait
    buckets of some person is zero, [normalize] divides without checking the
    sum: the division raises the built-in [ZeroDivisionError] and no table
    (hence no undefined probability) is returned. *)
Theorem normalize_zero_sum probabilities person entry :
  is_table probabilities →
  (person, entry) ∈ probabilities →
  sum_gene entry = 0%Qc ∨ sum_trait entry = 0%Qc →
  normalize probabilities = Raise ZeroDivisionError.
Proof.
  intros [Hd Hacc] Hin Hzero. rewrite normalize_items by done.
  apply (forM_Raise _ _ _ (person, entry) Hin).
  - cbn [fst snd]. rewrite normalize_entry_zero; [done|by eapply Hacc|done].
  - intros [k e] e' Hk. cbn [fst snd].
    destruct (normalize_entry e) as [?|e''] eqn:He; [done|].
    rewrite bind_Raise. intros [= <-].
    eapply normalize_entry_exn; [by eapply Hacc|done].
Qed.

Lemma normalize_zero_sum_witness :
  ("Harry", zero_dist) ∈ zero_table ∧
  (sum_gene zero_dist = 0%Qc ∨ sum_trait zero_dist = 0%Qc) ∧
  normalize zero_table = Raise ZeroDivisionError.
Proof.
  assert (("Harry", zero_dist) ∈ zero_table) as Hin by (apply elem_of_cons; by left).
  split; [exact Hin|]. split; [by left|].
  exact (normalize_zero_sum zero_table "Harry" zero_dist zero_table_is_table Hin
           (or_introl eq_refl)).
Defined.

(** ** The enumeration engine *)

Lemma foldM_ext {S A} (f g : S → A → result S) acc l :
  (∀ s x, x ∈ l → f s x = g s x) → foldM f acc l = foldM g acc l.
Proof.
  revert acc. induction l as [|x l IH]; intros acc Hfg; [done|].
  cbn [foldM]. rewrite Hfg by (apply elem_of_cons; by left).
  destruct (g acc x); [|done]. rewrite !bind_Ok.
  apply IH. intros s y Hy. apply Hfg, elem_of_cons; by right.
Qed.

Lemma foldM_app {S A} (f : S → A → result S) acc l1 l2 :
  foldM f acc (l1 ++ l2) = acc' ← foldM f acc l1; foldM f acc' l2.
Proof.
  revert acc. induction l1 as [|x l1 IH]; intros acc; [done|].
  cbn [foldM app]. destruct (f acc x); [|done]. rewrite !bind_Ok. apply IH.
Qed.

Lemma foldM_fmap {S A B} (f : S → B → result S) (k : A → B) acc l :
  foldM (λ s x, f s (k x)) acc l = foldM f acc (k <$> l).
Proof.
  revert acc. induction l as [|x l IH]; intros acc; [done|].
  cbn [foldM fmap list_fmap]. destruct (f acc (k x)); [|done].
  rewrite !bind_Ok. apply IH.
Qed.

Lemma foldM_flat_map {S A B} (f : S → B → result S) (k : A → list B) acc l :
  foldM (λ s x, foldM f s (k x)) acc l = foldM f acc (flat_map k l).
Proof.
  revert acc. induction l as [|x l IH]; intros acc; [done|].
  cbn [foldM flat_map]. rewrite foldM_app.
  destruct (foldM f acc (k x)); [|done]. rewrite !bind_Ok. apply IH.
Qed.

Lemma anyM_total {A} (f : A → result bool) l :
  (∀ x, x ∈ l → ∃ b, f x = Ok b) → ∃ b, anyM f l = Ok b.
Proof.
  induction l as [|x l IH]; intros Hf; [by eexists|].
  cbn [anyM]. destruct (Hf x) as [b ->]; [apply elem_of_cons; by left|].
  rewrite bind_Ok. destruct b; [by eexists|].
  apply IH. intros y Hy. apply Hf, elem_of_cons; by right.
Qed.

Lemma anyM_false {A} (f : A → result bool) l x :
  anyM f l = Ok false → x ∈ l → f x = Ok false.
Proof.
  induction l as [|y l IH]; intros Hany Hx; [by apply elem_of_nil in Hx|].
  cbn [anyM] in Hany. destruct (f y) as [[]|] eqn:Hfy; try done.
  rewrite bind_Ok in Hany. apply elem_of_cons in Hx as [->|Hx]; auto.
Qed.

(** The evidence check looks up only names of the population: it cannot raise. *)
Lemma fails_evidence_total people have_trait :
  ∃ b, fails_evidence people (list_to_set (dict_keys people)) have_trait = Ok b.
Proof.
  apply anyM_total. intros person Hin.
  apply elem_of_elements, elem_of_list_to_set in Hin.
  destruct (dict_get_key people person Hin) as [entry ->]. by eexists.
Qed.

(** [main] accumulates over exactly the hypotheses of [hypotheses], in
    order, and then normalizes. *)
Lemma main_hypotheses people :
  main people
  = probabilities ← foldM (accumulate_hypothesis people)
                       ((λ person, (person, zero_dist)) <$> dict_keys people)
                       (hypotheses people);
    normalize probabilities.
Proof.
  unfold main, hypotheses. cbv zeta. f_equal.
  rewrite <-foldM_flat_map. apply foldM_ext. intros probabilities have_trait _.
  destruct (fails_evidence_total people have_trait) as [fails ->].
  rewrite bind_Ok. destruct fails; [done|].
  rewrite <-foldM_fmap. unfold gene_pairs. rewrite <-foldM_flat_map.
  apply foldM_ext. intros probs one_gene _. by rewrite <-foldM_fmap.
Qed.

Lemma combinations_elem {A} (l : list A) r c x :
  c ∈ combinations l r → x ∈ c → x ∈ l.
Proof.
  revert r c. induction l as [|y l IH]; intros [|r] c; cbn [combinations].
  - intros ->%list_elem_of_singleton Hx. by apply elem_of_nil in Hx.
  - by intros ?%elem_of_nil.
  - intros ->%list_elem_of_singleton Hx. by apply elem_of_nil in Hx.
  - rewrite elem_of_app, list_elem_of_fmap. intros [(c' & -> & Hc')|Hc] Hx.
    + apply elem_of_cons in Hx as [->|Hx]; apply elem_of_cons; [by left|right].
      by eapply IH.
    + apply elem_of_cons; right. by eapply IH.
Qed.

(** Every set [powerset] returns is a subset of its argument. *)
Lemma powerset_subseteq (s t : gset string) : t ∈ powerset s → t ⊆ s.
Proof.
  unfold powerset. rewrite list_elem_of_fmap. intros (c & -> & Hc) x Hx.
  apply elem_of_list_to_set in Hx.
  apply list_elem_of_In, in_flat_map in Hc as (r & _ & Hc).
  apply list_elem_of_In in Hc. apply elem_of_elements. by eapply combinations_elem.
Qed.

Lemma hypotheses_elem people one_gene two_genes have_trait :
  (one_gene, two_genes, have_trait) ∈ hypotheses people →
  let names : gset string := list_to_set (dict_keys people) in
  have_trait ∈ powerset names ∧
  fails_evidence people names have_trait = Ok false ∧
  one_gene ∈ powerset names ∧
  two_genes ∈ powerset (names ∖ one_gene).
Proof.
  unfold hypotheses. cbv zeta.
  intros (h & Hh & Hin)%list_elem_of_In%in_flat_map.
  apply list_elem_of_In in Hh, Hin.
  destruct (fails_evidence _ _ h) as [[]|] eqn:Hfails;
    try by apply elem_of_nil in Hin.
  apply list_elem_of_fmap in Hin as ([o t] & [= -> -> ->] & Hpair).
  unfold gene_pairs in Hpair.
  apply list_elem_of_In, in_flat_map in Hpair as (o' & Ho & Hpair).
  apply list_elem_of_In in Ho, Hpair.
  apply list_elem_of_fmap in Hpair as (t' & [= -> ->] & Ht). done.
Qed.

(** C4: every hypothesis the enumeration computes a joint probability for
    and accumulates agrees with the evidence: a person whose trait was
    observed is in [have_trait] exactly when the observation is [True].
    [main] accumulates over these hypotheses and no others. *)
Theorem evidence_respected people one_gene two_genes have_trait
    person entry observed :
  (one_gene, two_genes, have_trait) ∈ hypotheses people →
  dict_get people person = Ok entry →
  trait entry = Some observed →
  (person ∈ have_trait ↔ observed = true) ∧
  main people
  = probabilities ← foldM (accumulate_hypothesis people)
                       ((λ person, (person, zero_dist)) <$> dict_keys people)
                       (hypotheses people);
    normalize probabilities.
Proof.
  intros (_ & Hfails & _)%hypotheses_elem Hget Hobs.
  split; [|apply main_hypotheses].
  unfold fails_evidence in Hfails.
  apply (anyM_false _ _ person) in Hfails.
  - cbv beta in Hfails. rewrite Hget, bind_Ok, Hobs in Hfails.
    destruct observed; case_bool_decide; cbn in Hfails; naive_solver.
  - apply elem_of_elements, elem_of_list_to_set.
    apply dict_get_elem in Hget. apply list_elem_of_fmap. by exists (person, entry).
Qed.

Lemma family_hypothesis :
  ({["Harry"]}, {["James"]}, {["James"]}) ∈ hypotheses family.
Proof. by_decide. Defined.

Lemma evidence_respected_witness :
  ("James" ∈ ({["James"]} : gset string) ↔ true = true) ∧
  main family
  = probabilities ← foldM (accumulate_hypothesis family)
                       ((λ person, (person, zero_dist)) <$> dict_keys family)
                       (hypotheses family);
    normalize probabilities.
Proof.
  exact (evidence_respected family {["Harry"]} {["James"]} {["James"]}
           "James" (founder "James" (Some true)) true
           family_hypothesis eq_refl eq_refl).
Defined.

(** C5: the one-copy set and the two-copy set of every hypothesis the
    enumeration passes to [joint_probability] and [update] are disjoint:
    [two_genes] is a set of [powerset (names - one_gene)].  [main] calls
    them on these hypotheses and no others. *)
Theorem gene_sets_disjoint people one_gene two_genes have_trait :
  (one_gene, two_genes, have_trait) ∈ hypotheses people →
  one_gene ## two_genes ∧
  two_genes ∈ powerset (list_to_set (dict_keys people) ∖ one_gene) ∧
  main people
  = probabilities ← foldM (accumulate_hypothesis people)
                       ((λ person, (person, zero_dist)) <$> dict_keys people)
                       (hypotheses people);
    normalize probabilities.
Proof.
  intros (_ & _ & _ & Htwo)%hypotheses_elem.
  split; [|split; [exact Htwo|apply main_hypotheses]].
  intros x Hone Hx. apply (powerset_subseteq _ _ Htwo), elem_of_difference in Hx.
  by destruct Hx.
Qed.

Lemma gene_sets_disjoint_witness :
  ({["Harry"]} : gset string) ## {["James"]} ∧
  ({["James"]} : gset string)
    ∈ powerset (list_to_set (dict_keys family) ∖ {["Harry"]}) ∧
  main family
  = probabilities ← foldM (accumulate_hypothesis family)
                       ((λ person, (person, zero_dist)) <$> dict_keys family)
                       (hypotheses family);
    normalize probabilities.
Proof.
  exact (gene_sets_disjoint family {["Harry"]} {["James"]} {["James"]}
           family_hypothesis).
Defined.

(** C8: on the empty population [main] raises nothing and returns the empty
    table: the only trait subset and the only pair of gene sets are empty,
    the joint probability of that hypothesis is 1, and accumulation and
    normalization go over no person. *)
Theorem main_empty :
  main [] = Ok [] ∧
  powerset ∅ = [∅] ∧
  hypotheses [] = [(∅, ∅, ∅)] ∧
  joint_probability [] ∅ ∅ ∅ = Ok (float 1.0) ∧
  update [] ∅ ∅ ∅ (float 1.0) = Ok [] ∧
  normalize [] = Ok [].
Proof. repeat split; reflexivity. Qed.

(** ** A single founder *)

Section single_founder.
Variables (n : string) (entry : person_data).
Hypothesis no_mother : mother entry = None.
Hypothesis no_father : father entry = None.
Hypothesis no_evidence : trait entry = None.

Local Abbreviation people := ([(n, entry)] : dict string person_data).
Local Abbreviation names := ({[n]} : gset string).

Lemma single_names : list_to_set (dict_keys people) = names.
Proof. cbn. apply union_empty_r_L. Qed.

Lemma single_powerset : powerset names = [∅; names].
Proof.
  unfold powerset. rewrite elements_singleton. cbn.
  by rewrite union_empty_r_L.
Qed.

Lemma single_hypotheses :
  hypotheses people
  = [(∅, ∅, ∅); (∅, names, ∅); (names, ∅, ∅);
     (∅, ∅, names); (∅, names, names); (names, ∅, names)].
Proof.
  unfold hypotheses, gene_pairs. cbv zeta. rewrite single_names, single_powerset.
  assert (powerset ∅ = [∅]) as Hempty by reflexivity.
  assert (∀ h, fails_evidence people names h = Ok false) as Hfails.
  { intros h. unfold fails_evidence. rewrite elements_singleton.
    cbn [anyM dict_get]. rewrite decide_True by done.
    by rewrite bind_Ok, no_evidence. }
  cbn [flat_map]. rewrite !Hfails.
  rewrite difference_empty_L, difference_diag_L, Hempty, single_powerset.
  reflexivity.
Qed.

Lemma single_accumulate acc one_gene two_genes have_trait :
  accumulate people [(n, acc)] one_gene two_genes have_trait
  = (let g := gene_count n one_gene two_genes in
     let t := bool_decide (n ∈ have_trait) in
     acc' ← bump acc g t (prior g * trait_given g t)%Qc; Ok [(n, acc')]).
Proof.
  unfold accumulate. rewrite joint_probability_steps.
  2: { unfold is_dict. cbn. apply NoDup_singleton. }
  cbn [fmap list_fmap fst snd product foldr].
  unfold step_factor. rewrite no_mother, no_father, bind_Ok.
  unfold update. rewrite dict_update_each_items.
  2: { unfold is_dict. cbn. apply NoDup_singleton. }
  cbn [forM fst snd]. rewrite getGene_count, Qcmult_1_r. unfold bump.
  cbv zeta.
  destruct (dict_iadd (gene acc) _ _); [|done]. rewrite !bind_Ok.
  destruct (dict_iadd (d_trait acc) _ _); done.
Qed.

Lemma single_fold acc (hs : list hypothesis) :
  foldM (accumulate_hypothesis people) [(n, acc)] hs
  = acc' ← foldM (λ acc (h : hypothesis),
               let g := gene_count n h.1.1 h.1.2 in
               let t := bool_decide (n ∈ h.2) in
               bump acc g t (prior g * trait_given g t)%Qc) acc hs;
    Ok [(n, acc')].
Proof.
  revert acc. induction hs as [|h hs IH]; intros acc; [done|].
  cbn [foldM].
  change (accumulate_hypothesis people [(n, acc)] h)
    with (accumulate people [(n, acc)] h.1.1 h.1.2 h.2).
  rewrite single_accumulate.
  cbv zeta. destruct (bump acc _ _ _); [|done]. rewrite !bind_Ok. apply IH.
Qed.

(** The run on a single founder without evidence, step by step: the six
    hypotheses in the order of the loops, then the normalization. *)
Lemma single_main :
  main people
  = acc ← foldM (λ acc (gt : Z * bool),
              bump acc gt.1 gt.2 (prior gt.1 * trait_given gt.1 gt.2)%Qc)
            zero_dist
            [(0, false); (2, false); (1, false); (0, true); (2, true); (1, true)];
    acc' ← normalize_entry acc;
    Ok [(n, acc')].
Proof.
  rewrite main_hypotheses, single_hypotheses.
  change ((λ person, (person, zero_dist)) <$> dict_keys people)
    with [(n, zero_dist)].
  rewrite single_fold.
  assert (n ∉ (∅ : gset string)) as Hempty by apply not_elem_of_empty.
  assert (n ∈ names) as Hn by by apply elem_of_singleton.
  assert (gene_count n ∅ ∅ = 0 ∧ gene_count n ∅ names = 2
          ∧ gene_count n names ∅ = 1) as (E0 & E2 & E1).
  { unfold gene_count. split; [|split].
    - by rewrite !decide_False.
    - rewrite decide_False by done. by rewrite decide_True.
    - by rewrite decide_True. }
  cbn [foldM fst snd]. cbv zeta. rewrite E0, E1, E2.
  rewrite !(bool_decide_eq_false_2 _ Hempty), !(bool_decide_eq_true_2 _ Hn).
  destruct (bump zero_dist 0 false _ ≫= _) as [acc|e] eqn:Hfold; [|done].
  rewrite !bind_Ok. rewrite normalize_items.
  2: { unfold is_dict. cbn. apply NoDup_singleton. }
  cbn [forM fst snd]. destruct (normalize_entry acc); done.
Qed.
End single_founder.

Lemma founder_run :
  (acc ← foldM (λ acc (gt : Z * bool),
             bump acc gt.1 gt.2 (prior gt.1 * trait_given gt.1 gt.2)%Qc)
           zero_dist
           [(0, false); (2, false); (1, false); (0, true); (2, true); (1, true)];
   normalize_entry acc)
  = Ok founder_dist.
Proof. vm_compute. qc_struct. Qed.

(** *** In binary64 *)

Lemma main_hypotheses64 people :
  B64.main people
  = probabilities ← foldM (B64.accumulate_hypothesis people)
                       ((λ person, (person, B64.zero_dist)) <$> dict_keys people)
                       (hypotheses people);
    B64.normalize probabilities.
Proof.
  unfold B64.main, hypotheses. cbv zeta. f_equal.
  rewrite <-foldM_flat_map. apply foldM_ext. intros probabilities have_trait _.
  destruct (fails_evidence_total people have_trait) as [fails ->].
  rewrite bind_Ok. destruct fails; [done|].
  rewrite <-foldM_fmap. unfold gene_pairs. rewrite <-foldM_flat_map.
  apply foldM_ext. intros probs one_gene _. by rewrite <-foldM_fmap.
Qed.

Section single_founder64.
Variables (n : string) (entry : person_data).
Hypothesis no_mother : mother entry = None.
Hypothesis no_father : father entry = None.
Hypothesis no_evidence : trait entry = None.

Local Abbreviation people := ([(n, entry)] : dict string person_data).
Local Abbreviation names := ({[n]} : gset string).

Lemma single_accumulate64 acc one_gene two_genes have_trait :
  B64.accumulate people [(n, acc)] one_gene two_genes have_trait
  = (let g := gene_count n one_gene two_genes in
     let t := bool_decide (n ∈ have_trait) in
     acc' ← B64.founder_pass acc g t; Ok [(n, acc')]).
Proof.
  unfold B64.accumulate, B64.joint_probability.
  cbn [dict_keys fmap list_fmap fst foldM]. unfold B64.joint_step.
  cbn [dict_get]. rewrite decide_True, bind_Ok by done.
  cbv zeta. rewrite no_mother, no_father, getGene_count.
  cbn [bool_decide decide_rel andb option_eq_None_dec option_eq_dec].
  fold (B64.founder_value (gene_count n one_gene two_genes)
          (bool_decide (n ∈ have_trait))).
  unfold B64.founder_pass.
  destruct (B64.founder_value _ _) as [p|e]; [|done]. rewrite !bind_Ok.
  unfold B64.update. rewrite dict_update_each_items.
  2: { unfold is_dict. cbn. apply NoDup_singleton. }
  cbn [forM fst snd]. rewrite getGene_count. unfold B64.bump. cbv zeta.
  destruct (B64.dict_iadd (B64.gene acc) _ _); [|done]. rewrite !bind_Ok.
  destruct (B64.dict_iadd (B64.d_trait acc) _ _); done.
Qed.

Lemma single_fold64 acc (hs : list hypothesis) :
  foldM (B64.accumulate_hypothesis people) [(n, acc)] hs
  = acc' ← foldM (λ acc (h : hypothesis),
               let g := gene_count n h.1.1 h.1.2 in
               let t := bool_decide (n ∈ h.2) in
               B64.founder_pass acc g t) acc hs;
    Ok [(n, acc')].
Proof.
  revert acc. induction hs as [|h hs IH]; intros acc; [done|].
  cbn [foldM].
  change (B64.accumulate_hypothesis people [(n, acc)] h)
    with (B64.accumulate people [(n, acc)] h.1.1 h.1.2 h.2).
  rewrite single_accumulate64.
  cbv zeta. destruct (B64.founder_pass acc _ _); [|done]. rewrite !bind_Ok. apply IH.
Qed.

Lemma single_main64 :
  B64.main people
  = acc ← foldM (λ acc (gt : Z * bool),
              B64.founder_pass acc gt.1 gt.2)
            B64.zero_dist
            [(0, false); (2, false); (1, false); (0, true); (2, true); (1, true)];
    acc' ← B64.normalize_entry acc;
    Ok [(n, acc')].
Proof.
  rewrite main_hypotheses64, single_hypotheses by done.
  change ((λ person, (person, B64.zero_dist)) <$> dict_keys people)
    with [(n, B64.zero_dist)].
  rewrite single_fold64.
  assert (n ∉ (∅ : gset string)) as Hempty by apply not_elem_of_empty.
  assert (n ∈ names) as Hn by by apply elem_of_singleton.
  assert (gene_count n ∅ ∅ = 0 ∧ gene_count n ∅ names = 2
          ∧ gene_count n names ∅ = 1) as (E0 & E2 & E1).
  { unfold gene_count. split; [|split].
    - by rewrite !decide_False.
    - rewrite decide_False by done. by rewrite decide_True.
    - by rewrite decide_True. }
  cbn [foldM fst snd]. cbv zeta. rewrite E0, E1, E2.
  rewrite !(bool_decide_eq_false_2 _ Hempty), !(bool_decide_eq_true_2 _ Hn).
  destruct (B64.founder_pass B64.zero_dist 0 false ≫= _) as [acc|e] eqn:Hfold; [|done].
  rewrite !bind_Ok. unfold B64.normalize. rewrite dict_update_each_items.
  2: { unfold is_dict. cbn. apply NoDup_singleton. }
  cbn [forM fst snd]. destruct (B64.normalize_entry acc); done.
Qed.
End single_founder64.

Lemma founder_run64 :
  (acc ← foldM (λ acc (gt : Z * bool),
             B64.founder_pass acc gt.1 gt.2)
           B64.zero_dist
           [(0, false); (2, false); (1, false); (0, true); (2, true); (1, true)];
   B64.normalize_entry acc)
  = Ok B64.founder_dist.
Proof. vm_compute. reflexivity. Qed.

Lemma founder_main64 (n : string) (entry : person_data) :
  mother entry = None → father entry = None → trait entry = None →
  B64.main [(n, entry)] = Ok [(n, B64.founder_dist)].
Proof.
  intros Hm Hf Ht. rewrite single_main64 by done.
  pose proof founder_run64 as Hrun.
  destruct (foldM _ B64.zero_dist _) as [acc|e]; [|discriminate Hrun].
  change (B64.normalize_entry acc = Ok B64.founder_dist) in Hrun.
  rewrite bind_Ok. by rewrite Hrun.
Qed.

(** In exact arithmetic the run returns the distributions of the
    specification. *)
Lemma founder_main (n : string) (entry : person_data) :
  mother entry = None → father entry = None → trait entry = None →
  main [(n, entry)] = Ok [(n, founder_dist)].
Proof.
  intros Hm Hf Ht. rewrite single_main by done.
  pose proof founder_run as Hrun.
  destruct (foldM _ zero_dist _) as [acc|e]; [|discriminate Hrun].
  change (normalize_entry acc = Ok founder_dist) in Hrun.
  rewrite bind_Ok. by rewrite Hrun.
Qed.

(** C2, as the specification states it, fails in the arithmetic of the
    code: the run on a single founder without evidence returns
    0.030000000000000002 for one copy, not the prior 0.03, and
    0.032900000000000006 for the trait, not the float
    0.96 * 0.01 + 0.03 * 0.56 + 0.01 * 0.65, which is 0.0329. *)
Lemma founder_prior_rounded :
  B64.main [("Harry", founder "Harry" None)] = Ok [("Harry", B64.founder_dist)] ∧
  ∃ g1 t1 : PrimFloat.float,
    dict_get (B64.gene B64.founder_dist) 1 = Ok g1 ∧
    B64.py_eq g1 (B64.prior 1) = false ∧
    dict_get (B64.d_trait B64.founder_dist) true = Ok t1 ∧
    B64.py_eq t1 B64.founder_trait = false.
Proof.
  split; [by apply founder_main64|].
  do 2 eexists. repeat split; vm_compute; reflexivity.
Qed.

(** C2, amended: for a population of one founder whose trait is not
    observed, in exact arithmetic the run returns for that person the prior
    as gene distribution, 0: 0.96, 1: 0.03, 2: 0.01, and as trait
    distribution True: 0.96 * 0.01 + 0.03 * 0.56 + 0.01 * 0.65 and False: its
    complement.  In binary64 the run returns 2: 0.01,
    1: 0.030000000000000002, 0: 0.96 and True: 0.032900000000000006,
    False: 0.9671: the buckets for no copy, for two copies and for the
    absence of the trait are the floats of the specification, and every
    bucket is within 1e-15 of its exact value. *)
Theorem founder_prior_recovery (n : string) (entry : person_data) :
  mother entry = None → father entry = None → trait entry = None →
  (main [(n, entry)] = Ok [(n, founder_dist)] ∧
   dict_get (gene founder_dist) 0 = Ok (float 0.96) ∧
   dict_get (gene founder_dist) 1 = Ok (float 0.03) ∧
   dict_get (gene founder_dist) 2 = Ok (float 0.01) ∧
   dict_get (d_trait founder_dist) true
   = Ok (float 0.96 * float 0.01 + float 0.03 * float 0.56
         + float 0.01 * float 0.65)%Qc ∧
   dict_get (d_trait founder_dist) false
   = Ok (1 - (float 0.96 * float 0.01 + float 0.03 * float 0.56
              + float 0.01 * float 0.65))%Qc) ∧
  (B64.main [(n, entry)] = Ok [(n, B64.founder_dist)] ∧
   dict_get (B64.gene B64.founder_dist) 0 = Ok (B64.prior 0) ∧
   dict_get (B64.gene B64.founder_dist) 2 = Ok (B64.prior 2) ∧
   dict_get (B64.d_trait B64.founder_dist) false
   = Ok (B64.complement B64.founder_trait) ∧
   (∀ g q, dict_get (gene founder_dist) g = Ok q →
      ∃ x, dict_get (B64.gene B64.founder_dist) g = Ok x ∧ B64.approx x q) ∧
   (∀ t q, dict_get (d_trait founder_dist) t = Ok q →
      ∃ x, dict_get (B64.d_trait B64.founder_dist) t = Ok x ∧ B64.approx x q)).
Proof.
  intros Hm Hf Ht. split.
  { split; [by apply founder_main|repeat split; reflexivity]. }
  split; [by apply founder_main64|]. do 3 (split; [reflexivity|]).
  split.
  - intros g q. cbn [gene founder_dist dict_get].
    repeat case_decide; subst; intros [= <-]; (eexists; split; [reflexivity|b64_approx]).
  - intros [] q; cbn [d_trait founder_dist dict_get];
      repeat case_decide; try done; intros [= <-];
      (eexists; split; [reflexivity|b64_approx]).
Qed.

Lemma founder_prior_recovery_witness :
  (main [("Harry", founder "Harry" None)] = Ok [("Harry", founder_dist)] ∧
   dict_get (gene founder_dist) 0 = Ok (float 0.96) ∧
   dict_get (gene founder_dist) 1 = Ok (float 0.03) ∧
   dict_get (gene founder_dist) 2 = Ok (float 0.01) ∧
   dict_get (d_trait founder_dist) true
   = Ok (float 0.96 * float 0.01 + float 0.03 * float 0.56
         + float 0.01 * float 0.65)%Qc ∧
   dict_get (d_trait founder_dist) false
   = Ok (1 - (float 0.96 * float 0.01 + float 0.03 * float 0.56
              + float 0.01 * float 0.65))%Qc) ∧
  (B64.main [("Harry", founder "Harry" None)] = Ok [("Harry", B64.founder_dist)] ∧
   dict_get (B64.gene B64.founder_dist) 0 = Ok (B64.prior 0) ∧
   dict_get (B64.gene B64.founder_dist) 2 = Ok (B64.prior 2) ∧
   dict_get (B64.d_trait B64.founder_dist) false
   = Ok (B64.complement B64.founder_trait) ∧
   (∀ g q, dict_get (gene founder_dist) g = Ok q →
      ∃ x, dict_get (B64.gene B64.founder_dist) g = Ok x ∧ B64.approx x q) ∧
   (∀ t q, dict_get (d_trait founder_dist) t = Ok q →
      ∃ x, dict_get (B64.d_trait B64.founder_dist) t = Ok x ∧ B64.approx x q)).
Proof.
  exact (founder_prior_recovery "Harry" (founder "Harry" None)
           eq_refl eq_refl eq_refl).
Defined.

(** ** The run is total on a pedigree

    Every factor of a joint probability is strictly positive and some
    hypothesis always agrees with the evidence, so the sums [normalize]
    divides by are never zero in a run of [main]. *)

Lemma prior_pos g : (0 < prior g)%Qc.
Proof. unfold prior. by destruct (g =? 0), (g =? 1). Qed.

Lemma trait_given_pos g t : (0 < trait_given g t)%Qc.
Proof. unfold trait_given. by destruct (g =? 0), (g =? 1), t. Qed.

Lemma transmission_pos g gm gf : (0 < transmission g gm gf)%Qc.
Proof.
  unfold transmission, inherit_probability.
  by destruct (g =? 0), (g =? 1), (gm =? 0), (gm =? 1), (gf =? 0), (gf =? 1).
Qed.

Lemma step_factor_pos one_gene two_genes have_trait person entry :
  (0 < step_factor one_gene two_genes have_trait person entry)%Qc.
Proof.
  unfold step_factor.
  destruct (mother entry), (father entry);
    apply Qcmult_pos_pos;
    auto using prior_pos, trait_given_pos, transmission_pos.
Qed.

Lemma product_pos l : Forall (λ x, 0 < x)%Qc l → (0 < product l)%Qc.
Proof.
  induction 1 as [|x l Hx _ IH]; [done|].
  rewrite product_cons. by apply Qcmult_pos_pos.
Qed.

Lemma joint_probability_pos people one_gene two_genes have_trait :
  is_dict people →
  ∃ p, joint_probability people one_gene two_genes have_trait = Ok p ∧ (0 < p)%Qc.
Proof.
  intros Hd. eexists. split; [by apply joint_probability_steps|].
  apply product_pos, Forall_fmap, Forall_forall. intros kv _.
  apply step_factor_pos.
Qed.

(** [powerset] returns every subset of its argument. *)
Lemma combinations_filter {A} (P : A → bool) (l : list A) :
  List.filter P l ∈ combinations l (length (List.filter P l)).
Proof.
  induction l as [|x l IH]; cbn [List.filter].
  - apply elem_of_cons; by left.
  - destruct (P x); cbn [length].
    + cbn [combinations]. apply elem_of_app; left.
      apply list_elem_of_fmap. by eexists.
    + destruct (length (List.filter P l)) eqn:Hlen.
      * apply length_zero_iff_nil in Hlen as ->. cbn [combinations].
        apply elem_of_cons; by left.
      * cbn [combinations]. apply elem_of_app; by right.
Qed.

Lemma powerset_complete (s t : gset string) : t ⊆ s → t ∈ powerset s.
Proof.
  intros Hsub. unfold powerset. apply list_elem_of_fmap.
  exists (List.filter (λ x, bool_decide (x ∈ t)) (elements s)). split.
  - apply set_eq. intros x. rewrite elem_of_list_to_set, list_elem_of_In, filter_In.
    rewrite <-list_elem_of_In, elem_of_elements, bool_decide_eq_true.
    split; [|by intros [_ ?]]. intros Hx. split; [by apply Hsub|done].
  - apply list_elem_of_In, in_flat_map.
    exists (length (List.filter (λ x, bool_decide (x ∈ t)) (elements s))). split.
    + apply in_seq. pose proof (filter_length_le (λ x, bool_decide (x ∈ t)) (elements s)).
      lia.
    + apply list_elem_of_In, combinations_filter.
Qed.

Lemma anyM_all_false {A} (f : A → result bool) l :
  (∀ x, x ∈ l → f x = Ok false) → anyM f l = Ok false.
Proof.
  induction l as [|x l IH]; intros Hf; [done|].
  cbn [anyM]. rewrite Hf, bind_Ok by (apply elem_of_cons; by left).
  apply IH. intros y Hy. apply Hf, elem_of_cons; by right.
Qed.

Lemma observed_trait_consistent people :
  fails_evidence people (list_to_set (dict_keys people)) (observed_trait people)
  = Ok false.
Proof.
  apply anyM_all_false. intros person Hin.
  apply elem_of_elements, elem_of_list_to_set in Hin.
  destruct (dict_get_key people person Hin) as [entry Hget].
  rewrite Hget, bind_Ok. f_equal.
  destruct (trait entry) as [t|] eqn:Ht; [|done].
  assert (person ∈ observed_trait people ↔ t = true) as Hobs.
  { unfold observed_trait.
    rewrite elem_of_list_to_set, list_elem_of_In, filter_In, <-list_elem_of_In.
    rewrite Hget, bool_decide_eq_true, Ht.
    split; [by intros [_ [= ->]]|by intros ->]. }
  destruct t; case_bool_decide as Hin'; cbn; [done| | |done].
  - by destruct Hin'; apply Hobs.
  - by apply Hobs in Hin'.
Qed.

Lemma powerset_nonempty s : powerset s ≠ [].
Proof.
  intros E. pose proof (powerset_complete s ∅ (empty_subseteq s)) as Hin.
  rewrite E in Hin. by apply elem_of_nil in Hin.
Qed.

Lemma hypotheses_nonempty people : hypotheses people ≠ [].
Proof.
  set (names := list_to_set (dict_keys people) : gset string).
  assert ((∅, ∅, observed_trait people) ∈ hypotheses people) as Hin.
  { unfold hypotheses. cbv zeta. apply list_elem_of_In, in_flat_map.
    exists (observed_trait people). split.
    - apply list_elem_of_In, powerset_complete. unfold observed_trait.
      intros x. rewrite !elem_of_list_to_set, list_elem_of_In, filter_In.
      rewrite <-list_elem_of_In. by intros [? _].
    - rewrite observed_trait_consistent. apply list_elem_of_In, list_elem_of_fmap.
      exists (∅, ∅). split; [done|]. unfold gene_pairs.
      apply list_elem_of_In, in_flat_map. exists ∅. split.
      + apply list_elem_of_In, powerset_complete, empty_subseteq.
      + apply list_elem_of_In, list_elem_of_fmap. exists ∅. split; [done|].
        apply powerset_complete, empty_subseteq. }
  intros E. rewrite E in Hin. by apply elem_of_nil in Hin.
Qed.

Lemma forM_Forall2 {A B} (f : A → result B) (R : A → B → Prop) l :
  (∀ x, x ∈ l → ∃ y, f x = Ok y ∧ R x y) →
  ∃ l', forM f l = Ok l' ∧ Forall2 R l l'.
Proof.
  induction l as [|x l IH]; intros Hf; [by exists []|].
  destruct (Hf x) as (y & Hy & HR); [apply elem_of_cons; by left|].
  destruct IH as (l' & Hl' & HRl').
  { intros z Hz. apply Hf, elem_of_cons; by right. }
  exists (y :: l'). cbn [forM]. rewrite Hy, bind_Ok, Hl', bind_Ok.
  split; [done|by constructor].
Qed.

(** Adding [p] to one gene-count bucket and one trait bucket of an
    accumulator raises nothing and adds [p] to both sums. *)
Lemma bump_accumulator entry g t p :
  is_accumulator entry → g = 0 ∨ g = 1 ∨ g = 2 →
  ∃ entry', bump entry g t p = Ok entry' ∧ is_accumulator entry' ∧
    sum_gene entry' = (sum_gene entry + p)%Qc ∧
    sum_trait entry' = (sum_trait entry + p)%Qc.
Proof.
  destruct entry as [G T]. unfold is_accumulator. cbn [gene d_trait].
  intros [HG HT] Hg.
  destruct G as [|[k1 v1] [|[k2 v2] [|[k3 v3] [|]]]]; try discriminate HG.
  destruct T as [|[b1 w1] [|[b2 w2] [|]]]; try discriminate HT.
  injection HG as -> -> ->. injection HT as -> ->.
  unfold bump, sum_gene, sum_trait, py_sum.
  destruct Hg as [->|[->| ->]], t; unfold dict_iadd;
    repeat (dict_simpl; rewrite bind_Ok);
    eexists; (split; [reflexivity|]); dict_simpl;
    cbn [dict_keys dict_values fmap list_fmap fst snd foldl];
    (split; [done|]); split; ring.
Qed.

Lemma update_table probabilities one_gene two_genes have_trait p :
  is_table probabilities →
  ∃ updated,
    update probabilities one_gene two_genes have_trait p = Ok updated ∧
    Forall2 (λ old new,
      new.1 = old.1 ∧ is_accumulator new.2 ∧
      sum_gene new.2 = (sum_gene old.2 + p)%Qc ∧
      sum_trait new.2 = (sum_trait old.2 + p)%Qc) probabilities updated.
Proof.
  intros [Hd Hacc]. unfold update. rewrite dict_update_each_items by done.
  apply forM_Forall2. intros [k e] Hin. cbn [fst snd].
  destruct (bump_accumulator e (getGene (Some k) one_gene two_genes)
              (bool_decide (k ∈ have_trait)) p) as (e' & He' & Hshape & Hsums).
  { by eapply Hacc. }
  { apply getGene_range. }
  exists (k, e'). split; [|done]. unfold bump in He'.
  destruct (dict_iadd (gene e) _ _); [|done]. rewrite bind_Ok in He' |- *.
  destruct (dict_iadd (d_trait e) _ _); [|done]. rewrite bind_Ok in He' |- *.
  by injection He' as <-.
Qed.

Lemma table_mass_is_table keys total probabilities :
  NoDup keys → table_mass keys total probabilities → is_table probabilities.
Proof.
  intros Hkeys [Hk Hall]. split; [unfold is_dict; by rewrite Hk|].
  intros person entry Hin. rewrite Forall_forall in Hall.
  by destruct (Hall _ Hin).
Qed.

Lemma table_mass_update keys total p probabilities updated :
  table_mass keys total probabilities →
  Forall2 (λ old new,
    new.1 = old.1 ∧ is_accumulator new.2 ∧
    sum_gene new.2 = (sum_gene old.2 + p)%Qc ∧
    sum_trait new.2 = (sum_trait old.2 + p)%Qc) probabilities updated →
  table_mass keys (total + p)%Qc updated.
Proof.
  intros [<- Hall] Hupd. unfold table_mass, dict_keys.
  induction Hupd as [|old new l l' (Hk & Hshape & Hg & Ht) _ IH];
    [by split|].
  apply Forall_cons in Hall as [(_ & <- & Htr) Hall].
  destruct (IH Hall) as [IHk IHall]. split.
  - rewrite !fmap_cons. by f_equal.
  - constructor; [|done]. rewrite Hg, Ht, Htr. done.
Qed.

Lemma accumulate_mass people keys total probabilities (hs : list hypothesis) :
  is_dict people → NoDup keys → (0 ≤ total)%Qc →
  table_mass keys total probabilities →
  ∃ total' accumulated,
    foldM (accumulate_hypothesis people) probabilities hs = Ok accumulated ∧
    table_mass keys total' accumulated ∧ (0 ≤ total')%Qc ∧
    (hs ≠ [] → (0 < total')%Qc).
Proof.
  intros Hpeople Hkeys. revert total probabilities.
  induction hs as [|[[o t] h] hs IH]; intros total probabilities Htotal Hmass.
  { exists total, probabilities. do 3 (split; [done|]). intros Hne. by destruct Hne. }
  cbn [foldM].
  change (accumulate_hypothesis people probabilities (o, t, h))
    with (accumulate people probabilities o t h).
  unfold accumulate.
  destruct (joint_probability_pos people o t h Hpeople) as (p & -> & Hp).
  rewrite bind_Ok.
  destruct (update_table probabilities o t h p) as (updated & -> & Hupd).
  { by eapply table_mass_is_table. }
  rewrite bind_Ok.
  assert (0 < total + p)%Qc as Hpos by by apply Qcplus_nonneg_pos.
  destruct (IH (total + p)%Qc updated) as (total' & acc & Hfold & Hmass' & Hle & Hlt).
  { by apply Qclt_le_weak. }
  { by eapply table_mass_update. }
  destruct hs as [|h' hs'].
  - injection Hfold as <-. exists (total + p)%Qc, updated.
    split; [done|]. split; [by eapply table_mass_update|].
    split; [by apply Qclt_le_weak|done].
  - exists total', acc. do 3 (split; [done|]). intros _. by apply Hlt.
Qed.

(** On a table without a zero sum [normalize] divides every bucket by the
    sum of its distribution. *)
Lemma normalize_table probabilities :
  is_table probabilities →
  (∀ kv, kv ∈ probabilities → sum_gene kv.2 ≠ 0%Qc ∧ sum_trait kv.2 ≠ 0%Qc) →
  normalize probabilities = Ok (normalized <$> probabilities).
Proof.
  intros [Hd Hacc] Hne. rewrite normalize_items by done. apply forM_Ok.
  intros [k e] Hin. destruct (Hne _ Hin). cbn [fst snd].
  rewrite normalize_entry_Ok; [done|by eapply Hacc|done..].
Qed.

(** X4: on every pedigree [main] raises nothing: it returns a table over
    the persons of the population, in their order, in which every
    distribution sums to 1.  The zero sum [normalize] cannot divide by never
    occurs in a run. *)
Theorem main_total people :
  is_dict people →
  ∃ probabilities,
    main people = Ok probabilities ∧
    dict_keys probabilities = dict_keys people ∧
    Forall (λ kv, sum_gene kv.2 = 1%Qc ∧ sum_trait kv.2 = 1%Qc) probabilities.
Proof.
  intros Hpeople. rewrite main_hypotheses.
  destruct (accumulate_mass people (dict_keys people) 0%Qc
              ((λ person, (person, zero_dist)) <$> dict_keys people)
              (hypotheses people)) as (total & acc & -> & Hmass & _ & Hpos);
    [done..| |].
  { split.
    - unfold dict_keys. rewrite <-list_fmap_compose. apply list_fmap_id.
    - apply Forall_fmap, Forall_forall. intros person _. by repeat split. }
  specialize (Hpos (hypotheses_nonempty people)). rewrite bind_Ok.
  assert (∀ kv, kv ∈ acc → sum_gene kv.2 = total ∧ sum_trait kv.2 = total) as Hsums.
  { intros kv Hin. destruct Hmass as [_ Hall].
    rewrite Forall_forall in Hall. by destruct (Hall _ Hin) as (_ & ? & ?). }
  assert (total ≠ 0%Qc) as Hne by (apply Qclt_not_eq in Hpos; congruence).
  rewrite normalize_table.
  2: { by eapply table_mass_is_table. }
  2: { intros kv Hin. destruct (Hsums kv Hin) as [-> ->]. done. }
  eexists. split; [done|]. destruct Hmass as [<- _]. split.
  - unfold dict_keys. rewrite <-list_fmap_compose. done.
  - apply Forall_fmap, Forall_forall. intros kv Hin.
    destruct (Hsums kv Hin) as [Hg Ht]. unfold normalized, sum_gene, sum_trait.
    cbn [snd gene d_trait]. fold (sum_gene kv.2) (sum_trait kv.2).
    split; apply py_sum_scale_one; fold (sum_gene kv.2) (sum_trait kv.2); congruence.
Qed.

(** * Further properties of the code *)

(** ** What a run computes: the marginals *)

Lemma mass_snoc people sel hs h :
  mass people sel (hs ++ [h])
  = if sel h then (mass people sel hs + joint_value people h)%Qc
    else mass people sel hs.
Proof. unfold mass. by rewrite foldl_app. Qed.

Lemma joint_value_pos people h : (0 < joint_value people h)%Qc.
Proof.
  apply product_pos, Forall_fmap, Forall_forall. intros kv _.
  apply step_factor_pos.
Qed.

Lemma mass_nonneg people sel hs : (0 ≤ mass people sel hs)%Qc.
Proof.
  induction hs as [|h hs IH] using rev_ind; [done|].
  rewrite mass_snoc. destruct (sel h); [|done].
  apply Qcplus_nonneg_nonneg; [done|]. apply Qclt_le_weak, joint_value_pos.
Qed.

Lemma mass_all_pos people hs : hs ≠ [] → (0 < mass people (λ _, true) hs)%Qc.
Proof.
  destruct hs as [|h hs] using rev_ind; [done|]. intros _.
  rewrite mass_snoc. apply Qcplus_nonneg_pos; [apply mass_nonneg|apply joint_value_pos].
Qed.

Lemma mass_le_total people sel hs :
  (mass people sel hs ≤ mass people (λ _, true) hs)%Qc.
Proof.
  induction hs as [|h hs IH] using rev_ind; [done|].
  rewrite !mass_snoc. destruct (sel h).
  - by apply Qcplus_le_mono_r.
  - etrans; [exact IH|]. rewrite <-(Qcplus_0_r (mass _ _ hs)) at 1.
    apply Qcplus_le_mono_l, Qclt_le_weak, joint_value_pos.
Qed.

Lemma mass_ext people sel sel' hs :
  (∀ h, h ∈ hs → sel h = sel' h) → mass people sel hs = mass people sel' hs.
Proof.
  induction hs as [|h hs IH] using rev_ind; intros Hsel; [done|].
  rewrite !mass_snoc, IH, Hsel; [done|..].
  - apply elem_of_app; right. apply elem_of_cons; by left.
  - intros h' Hh'. apply Hsel, elem_of_app; by left.
Qed.

Lemma mass_none people hs : mass people (λ _, false) hs = 0%Qc.
Proof.
  induction hs as [|h hs IH] using rev_ind; [done|]. by rewrite mass_snoc.
Qed.

Lemma mass_gene_total people person hs :
  (mass people (has_gene person 2) hs + mass people (has_gene person 1) hs
   + mass people (has_gene person 0) hs)%Qc
  = mass people (λ _, true) hs.
Proof.
  induction hs as [|h hs IH] using rev_ind; [by rewrite Qcplus_0_l|].
  rewrite !mass_snoc, <-IH. unfold has_gene.
  destruct (gene_count_range person h.1.1 h.1.2) as [->|[->| ->]];
    bool_decide_simpl; ring.
Qed.

Lemma mass_trait_total people person hs :
  (mass people (has_trait person true) hs
   + mass people (has_trait person false) hs)%Qc
  = mass people (λ _, true) hs.
Proof.
  induction hs as [|h hs IH] using rev_ind; [by rewrite Qcplus_0_l|].
  rewrite !mass_snoc, <-IH. unfold has_trait.
  destruct (bool_decide (person ∈ h.2)); bool_decide_simpl; ring.
Qed.

Lemma sum_gene_accumulated people hs person :
  sum_gene (accumulated people hs person) = mass people (λ _, true) hs.
Proof.
  rewrite <-(mass_gene_total people person). unfold sum_gene, py_sum, accumulated.
  cbn [gene dict_values fmap list_fmap snd foldl]. ring.
Qed.

Lemma sum_trait_accumulated people hs person :
  sum_trait (accumulated people hs person) = mass people (λ _, true) hs.
Proof.
  rewrite <-(mass_trait_total people person). unfold sum_trait, py_sum, accumulated.
  cbn [d_trait dict_values fmap list_fmap snd foldl]. ring.
Qed.

(** On a dict [update] is [bump] on the accumulator of every person. *)
Lemma update_items probabilities one_gene two_genes have_trait p :
  is_dict probabilities →
  update probabilities one_gene two_genes have_trait p
  = forM (λ kv, entry ← bump kv.2 (getGene (Some kv.1) one_gene two_genes)
                         (bool_decide (kv.1 ∈ have_trait)) p;
                Ok (kv.1, entry)) probabilities.
Proof.
  intros Hd. unfold update. rewrite dict_update_each_items by done.
  reflexivity.
Qed.

Lemma bump_accumulated people done person one_gene two_genes have_trait :
  bump (accumulated people done person) (getGene (Some person) one_gene two_genes)
       (bool_decide (person ∈ have_trait))
       (joint_value people (one_gene, two_genes, have_trait))
  = Ok (accumulated people (done ++ [(one_gene, two_genes, have_trait)]) person).
Proof.
  rewrite getGene_count. unfold accumulated. rewrite !mass_snoc.
  unfold has_gene, has_trait. cbn [fst snd].
  destruct (gene_count_range person one_gene two_genes) as [->|[->| ->]],
    (bool_decide (person ∈ have_trait));
    bool_decide_simpl; unfold bump, dict_iadd;
    repeat (dict_simpl; rewrite bind_Ok); done.
Qed.

Lemma accumulate_all people keys :
  is_dict people → NoDup keys →
  ∀ rest done,
    foldM (accumulate_hypothesis people)
      ((λ person, (person, accumulated people done person)) <$> keys) rest
    = Ok ((λ person, (person, accumulated people (done ++ rest) person)) <$> keys).
Proof.
  intros Hpeople Hkeys rest.
  induction rest as [|[[o t] h] rest IH]; intros done.
  { by rewrite app_nil_r. }
  cbn [foldM].
  change (accumulate_hypothesis people ?tb (o, t, h))
    with (accumulate people tb o t h).
  unfold accumulate. rewrite joint_probability_steps, bind_Ok by done.
  change (product _) with (joint_value people (o, t, h)).
  rewrite update_items.
  2: { unfold is_dict, dict_keys. rewrite <-list_fmap_compose.
       by rewrite list_fmap_id. }
  rewrite (forM_Ok _ (λ kv, (kv.1, accumulated people (done ++ [(o, t, h)]) kv.1))).
  2: { intros kv (person & -> & _)%list_elem_of_fmap. cbn [fst snd].
       by rewrite bump_accumulated. }
  rewrite bind_Ok, <-list_fmap_compose.
  etrans; [exact (IH (done ++ [(o, t, h)]))|]. by rewrite <-app_assoc.
Qed.

Lemma normalized_accumulated people person :
  hypotheses people ≠ [] →
  normalized (person, accumulated people (hypotheses people) person)
  = (person, posterior people person).
Proof.
  intros Hne. unfold normalized. cbn [fst snd].
  by rewrite sum_gene_accumulated, sum_trait_accumulated.
Qed.

Lemma main_posterior people :
  is_dict people →
  main people = Ok ((λ person, (person, posterior people person)) <$> dict_keys people).
Proof.
  intros Hpeople. rewrite main_hypotheses.
  change ((λ person, (person, zero_dist)) <$> dict_keys people)
    with ((λ person, (person, accumulated people [] person)) <$> dict_keys people).
  rewrite accumulate_all, bind_Ok by done. cbn [app].
  pose proof (hypotheses_nonempty people) as Hne.
  pose proof (mass_all_pos people _ Hne) as Hpos.
  apply Qclt_not_eq in Hpos.
  rewrite normalize_table.
  - rewrite <-list_fmap_compose. f_equal. apply list_fmap_ext.
    intros i person _. by apply normalized_accumulated.
  - split.
    + unfold is_dict, dict_keys. rewrite <-list_fmap_compose.
      by rewrite list_fmap_id.
    + intros person entry (k & [= -> ->] & _)%list_elem_of_fmap. by split.
  - intros kv (k & -> & _)%list_elem_of_fmap. cbn [snd].
    rewrite sum_gene_accumulated, sum_trait_accumulated. split; congruence.
Qed.

(** X1: on a pedigree (a dict of persons) [main] raises nothing and returns,
    for every person and in the order of the pedigree, the distributions
    of the definition: each bucket is the joint-probability mass of the
    enumerated hypotheses that give the person this value, divided by the
    mass of all enumerated hypotheses. *)
Theorem main_marginals people :
  is_dict people →
  main people = Ok ((λ person, (person, posterior people person)) <$> dict_keys people).
Proof. apply main_posterior. Qed.

Lemma dict_get_tabulate {V} (f : string → V) (keys : list string) k :
  k ∈ keys → dict_get ((λ k, (k, f k)) <$> keys) k = Ok (f k).
Proof.
  induction keys as [|k' keys IH]; intros Hk; [by apply elem_of_nil in Hk|].
  cbn [fmap list_fmap dict_get]. destruct (decide (k' = k)) as [->|Hne]; [done|].
  apply IH. apply elem_of_cons in Hk as [->|]; done.
Qed.

Lemma dict_get_in_keys {V} (d : dict string V) k v :
  dict_get d k = Ok v → k ∈ dict_keys d.
Proof.
  intros Hget%dict_get_elem. apply list_elem_of_fmap. by exists (k, v).
Qed.

(** In every enumerated hypothesis an observed person has the observed trait. *)
Lemma hypotheses_consistent people h person entry observed :
  h ∈ hypotheses people →
  dict_get people person = Ok entry → trait entry = Some observed →
  bool_decide (person ∈ h.2) = observed.
Proof.
  destruct h as [[o t] h]. intros (_ & Hfails & _)%hypotheses_elem Hget Hobs.
  unfold fails_evidence in Hfails. apply (anyM_false _ _ person) in Hfails.
  - cbv beta in Hfails. rewrite Hget, bind_Ok, Hobs in Hfails.
    cbn [snd]. injection Hfails as Hfails.
    by destruct observed, (bool_decide (person ∈ h)).
  - by apply elem_of_elements, elem_of_list_to_set, (dict_get_in_keys _ _ entry).
Qed.

Lemma Qcdiv_bounds (a b : Qc) :
  (0 ≤ a)%Qc → (a ≤ b)%Qc → (0 < b)%Qc → (0 ≤ a / b)%Qc ∧ (a / b ≤ 1)%Qc.
Proof.
  intros Ha Hab Hb. pose proof (Qcinv_pos b Hb) as Hinv. unfold Qcdiv. split.
  - apply Qcmult_nonneg_nonneg; [done|by apply Qclt_le_weak].
  - rewrite <-(Qcmult_inv_r b) by (apply Qclt_not_eq in Hb; congruence).
    apply Qcmult_le_mono_nonneg_r; [by apply Qclt_le_weak|done].
Qed.

(** X2: a person whose trait was observed comes out of the run with
    probability 1 on the observed value and 0 on the other one: no
    enumerated hypothesis puts mass on the value the evidence excludes. *)
Theorem observed_trait_certain people person entry observed :
  is_dict people →
  dict_get people person = Ok entry →
  trait entry = Some observed →
  ∃ probabilities d,
    main people = Ok probabilities ∧
    dict_get probabilities person = Ok d ∧
    dict_get (d_trait d) observed = Ok 1%Qc ∧
    dict_get (d_trait d) (negb observed) = Ok 0%Qc.
Proof.
  intros Hpeople Hget Hobs. eexists _, (posterior people person).
  split; [by apply main_posterior|].
  split; [by apply dict_get_tabulate, (dict_get_in_keys _ _ entry)|].
  pose proof (mass_all_pos people _ (hypotheses_nonempty people)) as Hpos.
  apply Qclt_not_eq in Hpos.
  assert (mass people (has_trait person observed) (hypotheses people)
          = mass people (λ _, true) (hypotheses people)) as Hyes.
  { apply mass_ext. intros h Hh. unfold has_trait.
    rewrite (hypotheses_consistent people h person entry observed) by done.
    by apply bool_decide_eq_true_2. }
  assert (mass people (has_trait person (negb observed)) (hypotheses people)
          = 0%Qc) as Hno.
  { rewrite <-(mass_none people (hypotheses people)). apply mass_ext.
    intros h Hh. unfold has_trait.
    rewrite (hypotheses_consistent people h person entry observed) by done.
    apply bool_decide_eq_false_2. by destruct observed. }
  unfold posterior. cbv zeta. cbn [d_trait].
  destruct observed; cbn [negb] in Hno; rewrite Hyes, Hno; dict_simpl;
    split; f_equal; unfold Qcdiv;
    first [apply Qcmult_inv_r; congruence | apply Qcmult_0_l].
Qed.

Lemma observed_trait_certain_witness :
  ∃ probabilities d,
    main family = Ok probabilities ∧
    dict_get probabilities "James" = Ok d ∧
    dict_get (d_trait d) true = Ok 1%Qc ∧
    dict_get (d_trait d) (negb true) = Ok 0%Qc.
Proof.
  exact (observed_trait_certain family "James" (founder "James" (Some true)) true
           family_is_dict eq_refl eq_refl).
Defined.

(** X3: every number [main] returns is a probability: each bucket of each
    distribution of each person lies between 0 and 1. *)
Theorem main_probabilities people :
  is_dict people →
  ∃ probabilities,
    main people = Ok probabilities ∧
    ∀ person d, (person, d) ∈ probabilities →
      (∀ g p, (g, p) ∈ gene d → (0 ≤ p)%Qc ∧ (p ≤ 1)%Qc) ∧
      (∀ t p, (t, p) ∈ d_trait d → (0 ≤ p)%Qc ∧ (p ≤ 1)%Qc).
Proof.
  intros Hpeople. eexists. split; [by apply main_posterior|].
  intros person d (k & [= -> ->] & _)%list_elem_of_fmap.
  pose proof (mass_all_pos people _ (hypotheses_nonempty people)) as Hpos.
  unfold posterior. cbv zeta. cbn [gene d_trait]. split; intros x p.
  - rewrite !elem_of_cons, elem_of_nil.
    intros [[= -> ->]|[[= -> ->]|[[= -> ->]|[]]]];
      apply Qcdiv_bounds; auto using mass_nonneg, mass_le_total.
  - rewrite !elem_of_cons, elem_of_nil.
    intros [[= -> ->]|[[= -> ->]|[]]];
      apply Qcdiv_bounds; auto using mass_nonneg, mass_le_total.
Qed.

Lemma main_probabilities_witness :
  ∃ probabilities,
    main family = Ok probabilities ∧
    ∀ person d, (person, d) ∈ probabilities →
      (∀ g p, (g, p) ∈ gene d → (0 ≤ p)%Qc ∧ (p ≤ 1)%Qc) ∧
      (∀ t p, (t, p) ∈ d_trait d → (0 ≤ p)%Qc ∧ (p ≤ 1)%Qc).
Proof. exact (main_probabilities family family_is_dict). Defined.

Lemma main_marginals_witness :
  main family
  = Ok ((λ person, (person, posterior family person)) <$> dict_keys family).
Proof. exact (main_marginals family family_is_dict). Defined.

Lemma main_total_witness :
  ∃ probabilities,
    main family = Ok probabilities ∧
    dict_keys probabilities = dict_keys family ∧
    Forall (λ kv, sum_gene kv.2 = 1%Qc ∧ sum_trait kv.2 = 1%Qc) probabilities.
Proof. exact (main_total family family_is_dict). Defined.

(** ** powerset: every subset, once *)

Lemma combinations_length {A} (l : list A) r c :
  c ∈ combinations l r → length c = r.
Proof.
  revert r c. induction l as [|x l IH]; intros [|r] c; cbn [combinations].
  - by intros ->%list_elem_of_singleton.
  - by intros ?%elem_of_nil.
  - by intros ->%list_elem_of_singleton.
  - rewrite elem_of_app, list_elem_of_fmap. intros [(c' & -> & Hc')|Hc].
    + cbn [length]. f_equal. by apply IH.
    + by apply IH.
Qed.

Lemma combinations_overflow {A} (l : list A) r :
  (length l < r)%nat → combinations l r = [].
Proof.
  revert r. induction l as [|x l IH]; intros [|r] Hlen; cbn in Hlen; try lia.
  - done.
  - cbn [combinations]. rewrite !IH by lia. done.
Qed.

Lemma combinations_filter_elem (l : list string) r c :
  NoDup l → c ∈ combinations l r →
  c = List.filter (λ x, bool_decide (x ∈ c)) l.
Proof.
  intros Hl. revert r c. induction Hl as [|x l Hx Hl IH]; intros [|r] c;
    cbn [combinations].
  - by intros ->%list_elem_of_singleton.
  - by intros ?%elem_of_nil.
  - intros ->%list_elem_of_singleton. cbn [List.filter].
    rewrite bool_decide_eq_false_2 by apply not_elem_of_nil.
    clear. induction l as [|y l IHl]; [done|]. cbn [List.filter].
    by rewrite bool_decide_eq_false_2 by apply not_elem_of_nil.
  - rewrite elem_of_app, list_elem_of_fmap. intros [(c' & -> & Hc')|Hc].
    + cbn [List.filter]. rewrite bool_decide_eq_true_2 by (apply elem_of_cons; by left).
      f_equal. rewrite (IH _ _ Hc') at 1. apply filter_ext_in. intros y Hy.
      apply bool_decide_ext. rewrite elem_of_cons.
      split; [by right|]. intros [->|?]; [|done].
      by apply list_elem_of_In in Hy.
    + cbn [List.filter]. rewrite bool_decide_eq_false_2.
      * by apply (IH (S r)).
      * intros Hin. apply Hx. by eapply combinations_elem.
Qed.

Lemma combinations_NoDup (l : list string) r : NoDup l → NoDup (combinations l r).
Proof.
  intros Hl. revert r. induction Hl as [|x l Hx Hl IH]; intros [|r];
    cbn [combinations]; try apply NoDup_singleton; [apply NoDup_nil_2|].
  apply NoDup_app. split; [|split].
  - apply NoDup_fmap_2; [|done]. by intros c1 c2 [=].
  - intros c (c' & -> & _)%list_elem_of_fmap Hc. apply Hx.
    eapply combinations_elem; [exact Hc|]. apply elem_of_cons; by left.
  - done.
Qed.

Lemma NoDup_flat_map {A B} (f : A → list B) (l : list A) :
  NoDup l → (∀ x, x ∈ l → NoDup (f x)) →
  (∀ x1 x2 y, x1 ∈ l → x2 ∈ l → y ∈ f x1 → y ∈ f x2 → x1 = x2) →
  NoDup (flat_map f l).
Proof.
  induction 1 as [|x l Hx Hl IH]; intros Hf Hdisj; [apply NoDup_nil_2|].
  cbn [flat_map]. apply NoDup_app. split; [|split].
  - apply Hf, elem_of_cons; by left.
  - intros y Hy Hy'. apply list_elem_of_In, in_flat_map in Hy' as (x' & Hx' & Hy').
    apply list_elem_of_In in Hx', Hy'. apply Hx.
    rewrite (Hdisj x x' y); [done|apply elem_of_cons; by left
                             |apply elem_of_cons; by right|done..].
  - apply IH.
    + intros x' Hx'. apply Hf, elem_of_cons; by right.
    + intros x1 x2 y H1 H2. apply Hdisj; apply elem_of_cons; by right.
Qed.

Lemma elem_of_flat_map {A B} (f : A → list B) (l : list A) y :
  y ∈ flat_map f l ↔ ∃ x, x ∈ l ∧ y ∈ f x.
Proof.
  rewrite list_elem_of_In, in_flat_map. setoid_rewrite list_elem_of_In. done.
Qed.

(** X5: [powerset s] lists exactly the subsets of [s]. *)
Theorem powerset_subsets (s t : gset string) : t ∈ powerset s ↔ t ⊆ s.
Proof. split; [apply powerset_subseteq|apply powerset_complete]. Qed.

Lemma powerset_NoDup_aux (l : list string) n :
  NoDup l →
  NoDup (list_to_set (C:=gset string) <$> flat_map (combinations l) (seq 0 n)).
Proof.
  intros Hl. apply NoDup_fmap_2_strong.
  - intros c1 c2 (r1 & _ & H1)%elem_of_flat_map (r2 & _ & H2)%elem_of_flat_map Heq.
    rewrite (combinations_filter_elem l r1 c1), (combinations_filter_elem l r2 c2)
      by done.
    apply filter_ext_in. intros y _. apply bool_decide_ext.
    by rewrite <-!(elem_of_list_to_set (C:=gset string)), Heq.
  - apply NoDup_flat_map.
    + apply NoDup_ListNoDup, seq_NoDup.
    + intros r _. by apply combinations_NoDup.
    + intros r1 r2 c _ _ H1 H2.
      by rewrite <-(combinations_length l r1 c), <-(combinations_length l r2 c).
Qed.

(** X6: [powerset s] lists no set twice. *)
Theorem powerset_NoDup (s : gset string) : NoDup (powerset s).
Proof. apply powerset_NoDup_aux, NoDup_elements. Qed.

Lemma list_sum_cons (x : nat) l : list_sum (x :: l) = (x + list_sum l)%nat.
Proof. reflexivity. Qed.

Lemma combinations_count {A} (l : list A) n :
  (length l < n)%nat →
  list_sum ((λ r, length (combinations l r)) <$> seq 0 n) = (2 ^ length l)%nat.
Proof.
  revert n. induction l as [|x l IH]; intros n Hn.
  - destruct n as [|n]; [cbn in Hn; lia|]. cbn [seq].
    rewrite fmap_cons, list_sum_cons, <-seq_shift, <-list_fmap_compose.
    assert (∀ rs, list_sum ((λ r, length (combinations (@nil A) r)) ∘ S <$> rs)
                  = 0%nat) as ->; [|done].
    induction rs as [|r rs IHrs]; [done|].
    by rewrite fmap_cons, list_sum_cons, IHrs.
  - destruct n as [|n]; [lia|]. cbn [length] in Hn. cbn [seq].
    rewrite fmap_cons, list_sum_cons, <-seq_shift, <-list_fmap_compose.
    assert (∀ rs, list_sum ((λ r, length (combinations (x :: l) r)) ∘ S <$> rs)
                  = (list_sum ((λ r, length (combinations l r)) <$> rs)
                     + list_sum ((λ r, length (combinations l r)) ∘ S <$> rs))%nat)
      as ->.
    { induction rs as [|r rs IHrs]; [done|].
      rewrite !fmap_cons, !list_sum_cons, IHrs. cbn [compose combinations].
      rewrite length_app, length_fmap. lia. }
    rewrite (IH n) by lia.
    pose proof (IH (S n) ltac:(lia)) as HS. cbn [seq] in HS.
    rewrite fmap_cons, list_sum_cons, <-seq_shift, <-list_fmap_compose in HS.
    assert (length (combinations l 0) = 1%nat) as E0 by by destruct l.
    assert (length (combinations (x :: l) 0) = 1%nat) as E1 by done.
    cbn [length]. rewrite Nat.pow_succ_r'. lia.
Qed.

(** X7: [powerset s] has 2 to the power of the size of [s] sets. *)
Theorem powerset_length (s : gset string) :
  length (powerset s) = (2 ^ size s)%nat.
Proof.
  unfold powerset. rewrite length_map, length_flat_map.
  change (map ?f ?l) with (f <$> l).
  rewrite combinations_count by lia. done.
Qed.

(** ** The enumeration: every hypothesis the evidence admits, once *)

Lemma fails_evidence_false people have_trait :
  fails_evidence people (list_to_set (dict_keys people)) have_trait = Ok false
  ↔ consistent people have_trait.
Proof.
  split.
  - intros Hfails person entry observed Hget Hobs.
    unfold fails_evidence in Hfails. apply (anyM_false _ _ person) in Hfails.
    + cbv beta in Hfails. rewrite Hget, bind_Ok, Hobs in Hfails.
      injection Hfails as Hfails.
      destruct observed; case_bool_decide; cbn in Hfails; split; done.
    + by apply elem_of_elements, elem_of_list_to_set, (dict_get_in_keys _ _ entry).
  - intros Hcons. apply anyM_all_false. intros person Hin.
    apply elem_of_elements, elem_of_list_to_set in Hin.
    destruct (dict_get_key people person Hin) as [entry Hget].
    rewrite Hget, bind_Ok. f_equal.
    destruct (trait entry) as [observed|] eqn:Hobs; [|done].
    specialize (Hcons person entry observed Hget Hobs).
    destruct observed; case_bool_decide as Hin'; cbn; [done| | |done].
    + by destruct Hin'; apply Hcons.
    + by apply Hcons in Hin'.
Qed.

(** X8: the evidence check of [main] never raises and answers [True]
    exactly when the trait set disagrees with some observation. *)
Theorem fails_evidence_spec people have_trait :
  ∃ fails,
    fails_evidence people (list_to_set (dict_keys people)) have_trait = Ok fails ∧
    (fails = false ↔ consistent people have_trait).
Proof.
  destruct (fails_evidence_total people have_trait) as [fails Hfails].
  exists fails. split; [done|]. rewrite <-fails_evidence_false, Hfails.
  split; [by intros ->|by intros [=]].
Qed.

(** X9: the hypotheses for which [main] calls [joint_probability] and
    [update] are exactly the triples of a trait set of persons that agrees
    with the evidence, a one-copy set of persons and a two-copy set of
    persons outside the one-copy set. *)
Theorem hypotheses_spec people one_gene two_genes have_trait :
  let names : gset string := list_to_set (dict_keys people) in
  (one_gene, two_genes, have_trait) ∈ hypotheses people
  ↔ have_trait ⊆ names ∧ consistent people have_trait ∧
    one_gene ⊆ names ∧ two_genes ⊆ names ∖ one_gene.
Proof.
  intros names. split.
  - intros (Hh & Hfails & Ho & Ht)%hypotheses_elem.
    apply fails_evidence_false in Hfails. auto using powerset_subseteq.
  - intros (Hh & Hcons & Ho & Ht). unfold hypotheses. cbv zeta.
    apply elem_of_flat_map. exists have_trait.
    split; [by apply powerset_complete|].
    apply fails_evidence_false in Hcons. rewrite Hcons.
    apply list_elem_of_fmap. exists (one_gene, two_genes). split; [done|].
    apply elem_of_flat_map. exists one_gene. split; [by apply powerset_complete|].
    apply list_elem_of_fmap. exists two_genes. split; [done|].
    by apply powerset_complete.
Qed.

Lemma gene_pairs_NoDup names : NoDup (gene_pairs names).
Proof.
  apply NoDup_flat_map.
  - apply powerset_NoDup_aux, NoDup_elements.
  - intros o _. apply NoDup_fmap_2; [by intros t1 t2 [=]|].
    apply powerset_NoDup_aux, NoDup_elements.
  - intros o1 o2 [o t] _ _ (t1 & [= -> ->] & _)%list_elem_of_fmap
      (t2 & [= -> _] & _)%list_elem_of_fmap. done.
Qed.

(** X10: [main] reaches no hypothesis twice, so no joint probability is
    added twice to a bucket. *)
Theorem hypotheses_NoDup people : NoDup (hypotheses people).
Proof.
  apply NoDup_flat_map.
  - apply powerset_NoDup_aux, NoDup_elements.
  - intros h _. destruct (fails_evidence _ _ h) as [[]|]; try apply NoDup_nil_2.
    apply NoDup_fmap_2; [|apply gene_pairs_NoDup].
    by intros [o1 t1] [o2 t2] [= -> ->].
  - intros h1 h2 [[o t] h] _ _ H1 H2.
    destruct (fails_evidence _ _ h1) as [[]|]; try by apply elem_of_nil in H1.
    destruct (fails_evidence _ _ h2) as [[]|]; try by apply elem_of_nil in H2.
    apply list_elem_of_fmap in H1 as (? & [= _ _ ->] & _).
    by apply list_elem_of_fmap in H2 as (? & [= _ _ ->] & _).
Qed.

(** ** joint_probability: a probability, whatever the order of the persons *)

Lemma prior_le_1 g : (prior g ≤ 1)%Qc.
Proof. unfold prior. destruct (g =? 0), (g =? 1); by_decide. Qed.

Lemma trait_given_le_1 g t : (trait_given g t ≤ 1)%Qc.
Proof. unfold trait_given. destruct (g =? 0), (g =? 1), t; by_decide. Qed.

Lemma transmission_le_1 g gm gf : (transmission g gm gf ≤ 1)%Qc.
Proof.
  unfold transmission, inherit_probability.
  destruct (g =? 0), (g =? 1), (gm =? 0), (gm =? 1), (gf =? 0), (gf =? 1);
    by_decide.
Qed.

Lemma Qcmult_le_1 (a b : Qc) :
  (0 ≤ a)%Qc → (a ≤ 1)%Qc → (0 ≤ b)%Qc → (b ≤ 1)%Qc → (a * b ≤ 1)%Qc.
Proof.
  intros Ha Ha1 Hb Hb1. etrans; [by apply Qcmult_le_mono_nonneg_r|].
  by rewrite Qcmult_1_l.
Qed.

Lemma step_factor_le_1 one_gene two_genes have_trait person entry :
  (step_factor one_gene two_genes have_trait person entry ≤ 1)%Qc.
Proof.
  unfold step_factor.
  destruct (mother entry), (father entry);
    apply Qcmult_le_1;
    auto using prior_le_1, trait_given_le_1, transmission_le_1, Qclt_le_weak,
      prior_pos, trait_given_pos, transmission_pos.
Qed.

Lemma product_le_1 l :
  Forall (λ x, 0 < x ∧ x ≤ 1)%Qc l → (product l ≤ 1)%Qc.
Proof.
  induction 1 as [|x l [Hx Hx1] Hl IH]; [done|]. rewrite product_cons.
  apply Qcmult_le_1; [by apply Qclt_le_weak|done| |done].
  apply Qclt_le_weak, product_pos. eapply Forall_impl; [exact Hl|]. by intros ? [? _].
Qed.

(** X11: on a pedigree [joint_probability] raises nothing, and in exact
    arithmetic the number it returns is a probability that is not zero: above
    0 and at most 1. *)
Theorem joint_probability_bounds people one_gene two_genes have_trait :
  is_dict people →
  ∃ p, joint_probability people one_gene two_genes have_trait = Ok p ∧
       (0 < p)%Qc ∧ (p ≤ 1)%Qc.
Proof.
  intros Hd. eexists. split; [by apply joint_probability_steps|]. split.
  - apply product_pos, Forall_fmap, Forall_forall. intros kv _.
    apply step_factor_pos.
  - apply product_le_1, Forall_fmap, Forall_forall. intros kv _.
    split; [apply step_factor_pos|apply step_factor_le_1].
Qed.

Lemma joint_probability_bounds_witness :
  ∃ p, joint_probability family {["Harry"]} {["James"]} {["James"]} = Ok p ∧
       (0 < p)%Qc ∧ (p ≤ 1)%Qc.
Proof.
  exact (joint_probability_bounds family {["Harry"]} {["James"]} {["James"]}
           family_is_dict).
Defined.

Lemma product_Permutation l1 l2 : l1 ≡ₚ l2 → product l1 = product l2.
Proof.
  induction 1 as [|x l1 l2 _ IH|x y l|l1 l2 l3 _ IH1 _ IH2]; [done|..].
  - by rewrite !product_cons, IH.
  - rewrite !product_cons. ring.
  - by rewrite IH1.
Qed.

(** X12: the order in which the persons of the pedigree are listed does not
    change the joint probability of a hypothesis. *)
Theorem joint_probability_Permutation people people'
    one_gene two_genes have_trait :
  is_dict people → people ≡ₚ people' →
  joint_probability people' one_gene two_genes have_trait
  = joint_probability people one_gene two_genes have_trait.
Proof.
  intros Hd Hperm. rewrite !joint_probability_steps; [|done|].
  - f_equal. apply product_Permutation. by rewrite Hperm.
  - unfold is_dict, dict_keys in *. by rewrite <-Hperm.
Qed.

Lemma joint_probability_Permutation_witness :
  joint_probability (reverse family) {["Harry"]} {["James"]} {["James"]}
  = joint_probability family {["Harry"]} {["James"]} {["James"]}.
Proof.
  apply (joint_probability_Permutation family (reverse family)).
  - exact family_is_dict.
  - symmetry. apply reverse_Permutation.
Defined.

(** X13: in exact arithmetic the joint probability of a hypothesis on a
    pedigree made of two parts is the product of its joint probabilities on
    the parts: a person contributes the same factor whoever else is
    listed. *)
Theorem joint_probability_app people1 people2 one_gene two_genes have_trait :
  is_dict (people1 ++ people2) →
  ∃ p1 p2,
    joint_probability people1 one_gene two_genes have_trait = Ok p1 ∧
    joint_probability people2 one_gene two_genes have_trait = Ok p2 ∧
    joint_probability (people1 ++ people2) one_gene two_genes have_trait
    = Ok (p1 * p2)%Qc.
Proof.
  intros Hd. unfold is_dict, dict_keys in Hd. rewrite fmap_app in Hd.
  apply NoDup_app in Hd as (Hd1 & Hdisj & Hd2).
  assert (is_dict (people1 ++ people2)) as Hd12.
  { unfold is_dict, dict_keys. rewrite fmap_app. by apply NoDup_app. }
  exists (joint_value people1 (one_gene, two_genes, have_trait)),
         (joint_value people2 (one_gene, two_genes, have_trait)).
  rewrite (joint_probability_steps people1), (joint_probability_steps people2),
    (joint_probability_steps (people1 ++ people2)) by done.
  split; [done|]. split; [done|]. by rewrite fmap_app, product_app.
Qed.

Lemma joint_probability_app_witness :
  ∃ p1 p2,
    joint_probability [("Harry", founder "Harry" None)] ∅ ∅ ∅ = Ok p1 ∧
    joint_probability [("Lily", founder "Lily" None)] ∅ ∅ ∅ = Ok p2 ∧
    joint_probability ([("Harry", founder "Harry" None)]
                       ++ [("Lily", founder "Lily" None)]) ∅ ∅ ∅
    = Ok (p1 * p2)%Qc.
Proof.
  apply (joint_probability_app [("Harry", founder "Harry" None)]
           [("Lily", founder "Lily" None)] ∅ ∅ ∅).
  by_decide.
Defined.

(** ** update: what it adds, when it raises, in what order *)

Lemma forM_Raise_inv {A B} (f : A → result B) l e :
  forM f l = Raise e → ∃ x, x ∈ l ∧ f x = Raise e.
Proof.
  induction l as [|x l IH]; [done|]. cbn [forM].
  destruct (f x) as [y|e'] eqn:Hfx.
  - rewrite bind_Ok. destruct (forM f l) as [ys|e'']; [done|].
    rewrite bind_Raise. intros [= ->]. destruct IH as (x' & Hx' & Hfx'); [done|].
    exists x'. split; [apply elem_of_cons; by right|done].
  - rewrite bind_Raise. intros [= ->]. exists x. split; [apply elem_of_cons; by left|done].
Qed.

Lemma dict_get_Raise {K V} `{EqDecision K} (d : dict K V) k e :
  dict_get d k = Raise e → e = KeyError ∧ k ∉ dict_keys d.
Proof.
  induction d as [|[k' v] d IH]; cbn [dict_get].
  - intros [= <-]. split; [done|apply not_elem_of_nil].
  - destruct (decide (k' = k)) as [->|Hne]; [done|]. intros [-> Hk]%IH.
    split; [done|]. unfold dict_keys. rewrite fmap_cons.
    apply not_elem_of_cons. by split.
Qed.

Lemma dict_iadd_Raise {K} `{EqDecision K} (d : dict K Qc) k p e :
  dict_iadd d k p = Raise e → e = KeyError ∧ k ∉ dict_keys d.
Proof.
  unfold dict_iadd. destruct (dict_get d k) eqn:Hget; [done|].
  rewrite bind_Raise. intros [= ->]. by eapply dict_get_Raise.
Qed.

Lemma Forall2_dict_get {V W} (R : string → V → W → Prop)
    (d : dict string V) (d' : dict string W) k v :
  Forall2 (λ old new, new.1 = old.1 ∧ R old.1 old.2 new.2) d d' →
  dict_get d k = Ok v → ∃ v', dict_get d' k = Ok v' ∧ R k v v'.
Proof.
  induction 1 as [|[k1 v1] [k2 v2] d d' [Hk HR] _ IH]; [done|].
  cbn [fst snd] in Hk, HR. subst k2. cbn [dict_get].
  destruct (decide (k1 = k)) as [->|]; [|done].
  intros [= ->]. by exists v2.
Qed.

Lemma Forall2_dict_keys {V W} (R : string → V → W → Prop)
    (d : dict string V) (d' : dict string W) :
  Forall2 (λ old new, new.1 = old.1 ∧ R old.1 old.2 new.2) d d' →
  dict_keys d' = dict_keys d.
Proof.
  unfold dict_keys. induction 1 as [|old new d d' [Hk _] _ IH]; [done|].
  rewrite !fmap_cons. by f_equal.
Qed.

(** What [+= p] on the bucket [k] leaves in the bucket [k']. *)
Lemma bump_effect entry g t p :
  is_accumulator entry → g = 0 ∨ g = 1 ∨ g = 2 →
  ∃ entry', bump entry g t p = Ok entry' ∧ is_accumulator entry' ∧
    (∀ g', dict_get (gene entry') g'
           = v ← dict_get (gene entry) g';
             Ok (if decide (g' = g) then v + p else v)%Qc) ∧
    (∀ t', dict_get (d_trait entry') t'
           = v ← dict_get (d_trait entry) t';
             Ok (if decide (t' = t) then v + p else v)%Qc).
Proof.
  destruct entry as [G T]. unfold is_accumulator. cbn [gene d_trait].
  intros [HG HT] Hg.
  destruct G as [|[k1 v1] [|[k2 v2] [|[k3 v3] [|]]]]; try discriminate HG.
  destruct T as [|[b1 w1] [|[b2 w2] [|]]]; try discriminate HT.
  injection HG as -> -> ->. injection HT as -> ->.
  destruct Hg as [->|[->| ->]], t; unfold bump, dict_iadd;
    repeat (dict_simpl; rewrite bind_Ok);
    eexists; (split; [reflexivity|]); dict_simpl;
    (split; [done|]); split; intros x; cbn [dict_get];
    repeat (destruct (decide _) as [<-|?]; rewrite ?bind_Ok; try done);
    repeat case_decide; try done; try (by destruct x).
Qed.

(** X14: on a table of accumulators [update] raises nothing, keeps the
    persons and their order, and for every person adds [p] to the bucket of
    the person's gene count and to the bucket of the person's trait, leaving
    the other buckets as they were. *)
Theorem update_adds probabilities one_gene two_genes have_trait p :
  is_table probabilities →
  ∃ updated,
    update probabilities one_gene two_genes have_trait p = Ok updated ∧
    dict_keys updated = dict_keys probabilities ∧
    ∀ person old, dict_get probabilities person = Ok old →
      ∃ new, dict_get updated person = Ok new ∧ is_accumulator new ∧
        (∀ g, dict_get (gene new) g
              = v ← dict_get (gene old) g;
                Ok (if decide (g = getGene (Some person) one_gene two_genes)
                    then v + p else v)%Qc) ∧
        (∀ t, dict_get (d_trait new) t
              = v ← dict_get (d_trait old) t;
                Ok (if decide (t = bool_decide (person ∈ have_trait))
                    then v + p else v)%Qc).
Proof.
  intros [Hd Hacc]. rewrite update_items by done.
  destruct (forM_Forall2
    (λ kv, entry ← bump kv.2 (getGene (Some kv.1) one_gene two_genes)
                      (bool_decide (kv.1 ∈ have_trait)) p; Ok (kv.1, entry))
    (λ old new, new.1 = old.1 ∧
       bumped one_gene two_genes have_trait p old.1 old.2 new.2)
    probabilities) as (updated & Hupd & Hall).
  { intros [k e] Hin. cbn [fst snd].
    destruct (bump_effect e (getGene (Some k) one_gene two_genes)
                (bool_decide (k ∈ have_trait)) p) as (e' & -> & He');
      [by eapply Hacc|apply getGene_range|].
    rewrite bind_Ok. exists (k, e'). split; [done|]. split; [done|]. exact He'. }
  exists updated. split; [done|]. split.
  - exact (Forall2_dict_keys _ _ _ Hall).
  - intros person old Hget.
    destruct (Forall2_dict_get _ _ _ _ _ Hall Hget) as (new & Hnew & HR).
    exists new. by split.
Qed.

Lemma update_adds_witness :
  ∃ updated,
    update zero_table {["Harry"]} ∅ ∅ 1%Qc = Ok updated ∧
    dict_keys updated = dict_keys zero_table ∧
    ∀ person old, dict_get zero_table person = Ok old →
      ∃ new, dict_get updated person = Ok new ∧ is_accumulator new ∧
        (∀ g, dict_get (gene new) g
              = v ← dict_get (gene old) g;
                Ok (if decide (g = getGene (Some person) {["Harry"]} ∅)
                    then v + 1 else v)%Qc) ∧
        (∀ t, dict_get (d_trait new) t
              = v ← dict_get (d_trait old) t;
                Ok (if decide (t = bool_decide (person ∈ (∅ : gset string)))
                    then v + 1 else v)%Qc).
Proof. exact (update_adds zero_table {["Harry"]} ∅ ∅ 1%Qc zero_table_is_table). Defined.

(** X15: on a dict whose entries need not be accumulators, the only
    exception [update] raises is [KeyError], and it raises it only when some
    person lacks the bucket of the person's gene count or of the person's
    trait. *)
Theorem update_KeyError probabilities one_gene two_genes have_trait p e :
  is_dict probabilities →
  update probabilities one_gene two_genes have_trait p = Raise e →
  e = KeyError ∧
  ∃ person entry, (person, entry) ∈ probabilities ∧
    (getGene (Some person) one_gene two_genes ∉ dict_keys (gene entry) ∨
     bool_decide (person ∈ have_trait) ∉ dict_keys (d_trait entry)).
Proof.
  intros Hd. rewrite update_items by done.
  intros ([k entry] & Hin & Hraise)%forM_Raise_inv. cbn [fst snd] in Hraise.
  unfold bump in Hraise.
  destruct (dict_iadd (gene entry) _ _) as [g'|e'] eqn:Hg.
  - rewrite bind_Ok in Hraise.
    destruct (dict_iadd (d_trait entry) _ _) as [t'|e'] eqn:Ht; [done|].
    rewrite !bind_Raise in Hraise. injection Hraise as ->.
    apply dict_iadd_Raise in Ht as [-> Ht]. split; [done|].
    exists k, entry. auto.
  - rewrite !bind_Raise in Hraise. injection Hraise as ->.
    apply dict_iadd_Raise in Hg as [-> Hg]. split; [done|].
    exists k, entry. auto.
Qed.

Lemma update_KeyError_witness :
  KeyError = KeyError ∧
  ∃ person entry,
    (person, entry) ∈ [("Harry", {| gene := [(0, 0%Qc)]; d_trait := [] |})] ∧
    (getGene (Some person) {["Harry"]} ∅ ∉ dict_keys (gene entry) ∨
     bool_decide (person ∈ (∅ : gset string)) ∉ dict_keys (d_trait entry)).
Proof.
  assert (is_dict [("Harry", {| gene := [(0, 0%Qc)]; d_trait := [] |})]) as Hd
    by by_decide.
  exact (update_KeyError [("Harry", {| gene := [(0, 0%Qc)]; d_trait := [] |})]
           {["Harry"]} ∅ ∅ 1%Qc KeyError Hd eq_refl).
Defined.

Lemma bump_commute entry g1 t1 p1 g2 t2 p2 :
  is_accumulator entry → g1 = 0 ∨ g1 = 1 ∨ g1 = 2 → g2 = 0 ∨ g2 = 1 ∨ g2 = 2 →
  (e ← bump entry g1 t1 p1; bump e g2 t2 p2)
  = (e ← bump entry g2 t2 p2; bump e g1 t1 p1).
Proof.
  destruct entry as [G T]. unfold is_accumulator. cbn [gene d_trait].
  intros [HG HT] Hg1 Hg2.
  destruct G as [|[k1 v1] [|[k2 v2] [|[k3 v3] [|]]]]; try discriminate HG.
  destruct T as [|[b1 w1] [|[b2 w2] [|]]]; try discriminate HT.
  injection HG as -> -> ->. injection HT as -> ->.
  destruct Hg1 as [->|[->| ->]], Hg2 as [->|[->| ->]], t1, t2;
    unfold bump, dict_iadd; repeat (dict_simpl; rewrite bind_Ok);
    qc_ring_struct.
Qed.

Lemma update_bump probabilities one_gene two_genes have_trait p :
  is_table probabilities →
  ∃ updated,
    update probabilities one_gene two_genes have_trait p = Ok updated ∧
    is_table updated ∧
    Forall2 (λ old new,
      new.1 = old.1 ∧
      bump old.2 (getGene (Some old.1) one_gene two_genes)
           (bool_decide (old.1 ∈ have_trait)) p = Ok new.2) probabilities updated.
Proof.
  intros [Hd Hacc]. rewrite update_items by done.
  destruct (forM_Forall2
    (λ kv, entry ← bump kv.2 (getGene (Some kv.1) one_gene two_genes)
                      (bool_decide (kv.1 ∈ have_trait)) p; Ok (kv.1, entry))
    (λ old new, new.1 = old.1 ∧ is_accumulator new.2 ∧
       bump old.2 (getGene (Some old.1) one_gene two_genes)
            (bool_decide (old.1 ∈ have_trait)) p = Ok new.2)
    probabilities) as (updated & Hupd & Hall).
  { intros [k e] Hin. cbn [fst snd].
    destruct (bump_accumulator e (getGene (Some k) one_gene two_genes)
                (bool_decide (k ∈ have_trait)) p) as (e' & He' & Hshape & _);
      [by eapply Hacc|apply getGene_range|].
    rewrite He', bind_Ok. by exists (k, e'). }
  exists updated. split; [done|]. split; [split|].
  - unfold is_dict in *.
    assert (dict_keys updated = dict_keys probabilities) as ->; [|done].
    clear Hupd Hacc Hd. unfold dict_keys.
    induction Hall as [|old new l l' [Hk _] _ IH]; [done|].
    rewrite !fmap_cons. by f_equal.
  - intros person entry Hin. clear Hupd Hd Hacc.
    induction Hall as [|old new l l' (_ & Hshape & _) _ IH];
      [by apply elem_of_nil in Hin|].
    apply elem_of_cons in Hin as [<-|Hin]; [exact Hshape|by apply IH].
  - eapply Forall2_impl; [exact Hall|]. by intros old new (? & _ & ?).
Qed.

(** X16: two updates of a table of accumulators give the same table in
    either order: the buckets do not depend on the order in which the
    hypotheses are accumulated. *)
Theorem update_commute probabilities
    one_gene1 two_genes1 have_trait1 p1 one_gene2 two_genes2 have_trait2 p2 :
  is_table probabilities →
  (updated ← update probabilities one_gene1 two_genes1 have_trait1 p1;
   update updated one_gene2 two_genes2 have_trait2 p2)
  = (updated ← update probabilities one_gene2 two_genes2 have_trait2 p2;
     update updated one_gene1 two_genes1 have_trait1 p1).
Proof.
  intros Htable.
  destruct (update_bump probabilities one_gene1 two_genes1 have_trait1 p1 Htable)
    as (u1 & -> & Hu1 & H1).
  destruct (update_bump u1 one_gene2 two_genes2 have_trait2 p2 Hu1)
    as (w12 & E12 & _ & H12).
  destruct (update_bump probabilities one_gene2 two_genes2 have_trait2 p2 Htable)
    as (u2 & -> & Hu2 & H2).
  destruct (update_bump u2 one_gene1 two_genes1 have_trait1 p1 Hu2)
    as (w21 & E21 & _ & H21).
  rewrite !bind_Ok, E12, E21. f_equal.
  destruct Htable as [_ Hacc]. clear E12 E21 Hu1 Hu2.
  revert u1 w12 u2 w21 H1 H12 H2 H21.
  induction probabilities as [|[k e] l IH]; intros u1 w12 u2 w21 H1 H12 H2 H21.
  - apply Forall2_nil_inv_l in H1 as ->. apply Forall2_nil_inv_l in H2 as ->.
    apply Forall2_nil_inv_l in H12 as ->. by apply Forall2_nil_inv_l in H21 as ->.
  - apply Forall2_cons_inv_l in H1 as ([k1 e1] & u1' & [Hk1 He1] & H1 & ->).
    apply Forall2_cons_inv_l in H2 as ([k2 e2] & u2' & [Hk2 He2] & H2 & ->).
    apply Forall2_cons_inv_l in H12 as ([k12 e12] & w12' & [Hk12 He12] & H12 & ->).
    apply Forall2_cons_inv_l in H21 as ([k21 e21] & w21' & [Hk21 He21] & H21 & ->).
    cbn [fst snd] in *. subst k1 k2 k12 k21.
    assert (is_accumulator e) as He by (eapply Hacc, elem_of_cons; by left).
    pose proof (bump_commute e (getGene (Some k) one_gene1 two_genes1)
                  (bool_decide (k ∈ have_trait1)) p1
                  (getGene (Some k) one_gene2 two_genes2)
                  (bool_decide (k ∈ have_trait2)) p2 He
                  (getGene_range _ _ _) (getGene_range _ _ _)) as Hcomm.
    rewrite He1, He2, !bind_Ok, He12, He21 in Hcomm. injection Hcomm as ->.
    f_equal. eapply IH; [|done..].
    intros person entry Hin. eapply Hacc, elem_of_cons. by right.
Qed.

Lemma update_commute_witness :
  (updated ← update zero_table {["Harry"]} ∅ ∅ 1%Qc;
   update updated ∅ {["Harry"]} {["Harry"]} 1%Qc)
  = (updated ← update zero_table ∅ {["Harry"]} {["Harry"]} 1%Qc;
     update updated {["Harry"]} ∅ ∅ 1%Qc).
Proof.
  exact (update_commute zero_table {["Harry"]} ∅ ∅ 1%Qc ∅ {["Harry"]} {["Harry"]}
           1%Qc zero_table_is_table).
Defined.

(** ** normalize: when it returns, and what a second pass does *)

Lemma scale_1 {K} (d : dict K Qc) : scale 1%Qc d = d.
Proof.
  unfold scale. induction d as [|[k v] d IH]; [done|].
  rewrite fmap_cons, IH. cbn [fst snd]. do 2 f_equal.
  unfold Qcdiv. replace (/ 1)%Qc with 1%Qc by qc_compute. ring.
Qed.

(** X17: on a table of accumulators [normalize] returns the table of the
    scaled distributions when no sum is zero, and raises
    [ZeroDivisionError] when the sum of some distribution is zero: there is
    no third outcome. *)
Theorem normalize_dichotomy probabilities :
  is_table probabilities →
  (Forall (λ kv, sum_gene kv.2 ≠ 0%Qc ∧ sum_trait kv.2 ≠ 0%Qc) probabilities ∧
   normalize probabilities = Ok (normalized <$> probabilities)) ∨
  (Exists (λ kv, sum_gene kv.2 = 0%Qc ∨ sum_trait kv.2 = 0%Qc) probabilities ∧
   normalize probabilities = Raise ZeroDivisionError).
Proof.
  intros Htable.
  destruct (decide (Exists (λ kv : string * dist,
              sum_gene kv.2 = 0%Qc ∨ sum_trait kv.2 = 0%Qc) probabilities))
    as [Hex|Hnex].
  - right. split; [done|]. destruct Htable as [Hd Hacc].
    apply Exists_exists in Hex as ([k e] & Hin & Hzero). cbn [snd] in Hzero.
    rewrite normalize_items by done.
    apply (forM_Raise _ _ _ (k, e) Hin).
    + cbn [fst snd]. rewrite normalize_entry_zero; [done|by eapply Hacc|done].
    + intros [k' e'] x Hk'. cbn [fst snd].
      destruct (normalize_entry e') as [?|x'] eqn:He'; [done|].
      rewrite bind_Raise. intros [= <-].
      eapply normalize_entry_exn; [by eapply Hacc|done].
  - left. apply not_Exists_Forall in Hnex; [|apply _].
    assert (Forall (λ kv : string * dist,
              sum_gene kv.2 ≠ 0%Qc ∧ sum_trait kv.2 ≠ 0%Qc) probabilities) as Hall.
    { eapply Forall_impl; [exact Hnex|]. intros kv Hkv. cbn in Hkv. split; tauto. }
    split; [done|]. apply normalize_table; [done|].
    by apply Forall_forall.
Qed.

Lemma normalize_dichotomy_witness :
  (Forall (λ kv, sum_gene kv.2 ≠ 0%Qc ∧ sum_trait kv.2 ≠ 0%Qc) zero_table ∧
   normalize zero_table = Ok (normalized <$> zero_table)) ∨
  (Exists (λ kv, sum_gene kv.2 = 0%Qc ∨ sum_trait kv.2 = 0%Qc) zero_table ∧
   normalize zero_table = Raise ZeroDivisionError).
Proof. exact (normalize_dichotomy zero_table zero_table_is_table). Defined.

Lemma normalized_is_table probabilities :
  is_table probabilities → is_table (normalized <$> probabilities).
Proof.
  intros [Hd Hacc]. split.
  - unfold is_dict, dict_keys in *. by rewrite <-list_fmap_compose.
  - intros person entry ([k e] & [= -> ->] & Hin)%list_elem_of_fmap.
    destruct (Hacc k e Hin) as [Hg Ht]. split; cbn [snd gene d_trait];
      by rewrite dict_keys_scale.
Qed.

(** X18: in exact arithmetic normalizing twice is normalizing once: on the
    table [normalize] returns, a second [normalize] returns the same
    table. *)
Theorem normalize_idempotent probabilities normalized_table :
  is_table probabilities →
  normalize probabilities = Ok normalized_table →
  normalize normalized_table = Ok normalized_table.
Proof.
  intros Htable Hnorm.
  destruct (decide (Exists (λ kv : string * dist,
              sum_gene kv.2 = 0%Qc ∨ sum_trait kv.2 = 0%Qc) probabilities))
    as [Hex|Hnex].
  { destruct Htable as [Hd Hacc].
    apply Exists_exists in Hex as ([k e] & Hin & Hzero). cbn [snd] in Hzero.
    rewrite normalize_items in Hnorm by done.
    rewrite (forM_Raise _ ZeroDivisionError _ (k, e) Hin) in Hnorm; [done| |].
    - cbn [fst snd]. rewrite normalize_entry_zero; [done|by eapply Hacc|done].
    - intros [k' e'] x Hk'. cbn [fst snd].
      destruct (normalize_entry e') as [?|x'] eqn:He'; [done|].
      rewrite bind_Raise. intros [= <-].
      eapply normalize_entry_exn; [by eapply Hacc|done]. }
  apply not_Exists_Forall in Hnex; [|apply _]. rewrite Forall_forall in Hnex.
  assert (∀ kv, kv ∈ probabilities →
            sum_gene kv.2 ≠ 0%Qc ∧ sum_trait kv.2 ≠ 0%Qc) as Hne.
  { intros kv Hkv. specialize (Hnex kv Hkv). cbn in Hnex. split; tauto. }
  rewrite normalize_table in Hnorm by done. injection Hnorm as <-.
  assert (∀ kv, kv ∈ probabilities →
            sum_gene (normalized kv).2 = 1%Qc ∧ sum_trait (normalized kv).2 = 1%Qc)
    as Hone.
  { intros kv Hkv. destruct (Hne kv Hkv). split; by apply py_sum_scale_one. }
  rewrite normalize_table.
  - f_equal. rewrite <-list_fmap_compose. apply list_fmap_ext.
    intros i kv Hkv%list_elem_of_lookup_2. cbn [compose].
    destruct (Hone kv Hkv) as [Hg Ht].
    unfold normalized at 1. rewrite Hg, Ht, !scale_1. by destruct (normalized kv) as [? []].
  - by apply normalized_is_table.
  - intros kv' (kv & -> & Hkv)%list_elem_of_fmap.
    destruct (Hone kv Hkv) as [-> ->]. done.
Qed.

Lemma normalize_idempotent_witness :
  normalize (normalized <$> sample_table) = Ok (normalized <$> sample_table).
Proof.
  apply (normalize_idempotent sample_table (normalized <$> sample_table)
           sample_table_is_table).
  vm_compute. qc_struct.
Defined.

(** ** load_data: from the rows of the file to the pedigree *)

Section dict_set_facts.
Context {K V : Type} `{EqDecision K}.
Implicit Types (d : dict K V) (k : K) (v : V).

Lemma dict_get_set d k v k' :
  dict_get (dict_set d k v) k' = if decide (k = k') then Ok v else dict_get d k'.
Proof.
  induction d as [|[k1 v1] d IH]; cbn [dict_set dict_get].
  - destruct (decide (k = k')); done.
  - destruct (decide (k1 = k)) as [->|Hne]; cbn [dict_get].
    + destruct (decide (k = k')); done.
    + destruct (decide (k1 = k')) as [->|]; [by rewrite decide_False|done].
Qed.

Lemma dict_keys_set_elem d k v k' :
  k' ∈ dict_keys (dict_set d k v) ↔ k' = k ∨ k' ∈ dict_keys d.
Proof.
  unfold dict_keys. induction d as [|[k1 v1] d IH]; cbn [dict_set].
  - rewrite !fmap_cons, !fmap_nil. cbn [fst]. rewrite list_elem_of_singleton.
    split; [by left|]. intros [?|?%elem_of_nil]; done.
  - destruct (decide (k1 = k)) as [->|Hne]; rewrite !fmap_cons; cbn [fst].
    + rewrite !elem_of_cons. tauto.
    + rewrite !elem_of_cons, IH. tauto.
Qed.

Lemma is_dict_set d k v : is_dict d → is_dict (dict_set d k v).
Proof.
  unfold is_dict. induction d as [|[k1 v1] d IH]; cbn [dict_set]; intros Hd.
  - apply NoDup_singleton.
  - unfold dict_keys in *. rewrite fmap_cons in Hd. cbn [fst] in Hd.
    apply NoDup_cons in Hd as [Hk1 Hd].
    destruct (decide (k1 = k)) as [->|Hne]; rewrite fmap_cons; cbn [fst].
    + by apply NoDup_cons.
    + apply NoDup_cons. split; [|by apply IH].
      intros [?|?]%dict_keys_set_elem; done.
Qed.
End dict_set_facts.

Lemma load_row_complete data r :
  complete_row r →
  ∃ n m f t, dict_get r "name" = Ok n ∧ row_name r = Some n ∧
    load_row data r = Ok (dict_set data n (person_of n m f t)) ∧
    dict_get r "mother" = Ok m ∧ dict_get r "father" = Ok f ∧
    dict_get r "trait" = Ok t.
Proof.
  intros (n & m & f & t & Hn & Hm & Hf & Ht). exists n, m, f, t.
  unfold load_row, row_name. rewrite Hn, Hm, Hf, Ht. done.
Qed.

Lemma load_row_Raise data r e :
  load_row data r = Raise e → e = KeyError ∧ ¬ complete_row r.
Proof.
  unfold load_row. intros Hraise.
  destruct (dict_get r "name") as [n|e1] eqn:Hn.
  2: { rewrite bind_Raise in Hraise. injection Hraise as ->.
       destruct (dict_get_Raise _ _ _ Hn) as [-> _]. split; [done|].
       intros (? & ? & ? & ? & ? & _). congruence. }
  destruct (dict_get r "mother") as [m|e1] eqn:Hm.
  2: { rewrite bind_Ok, bind_Raise in Hraise. injection Hraise as ->.
       destruct (dict_get_Raise _ _ _ Hm) as [-> _]. split; [done|].
       intros (? & ? & ? & ? & _ & ? & _). congruence. }
  destruct (dict_get r "father") as [f|e1] eqn:Hf.
  2: { rewrite !bind_Ok, bind_Raise in Hraise. injection Hraise as ->.
       destruct (dict_get_Raise _ _ _ Hf) as [-> _]. split; [done|].
       intros (? & ? & ? & ? & _ & _ & ? & _). congruence. }
  destruct (dict_get r "trait") as [t|e1] eqn:Ht; [done|].
  rewrite !bind_Ok, bind_Raise in Hraise. injection Hraise as ->.
  destruct (dict_get_Raise _ _ _ Ht) as [-> _]. split; [done|].
  intros (? & ? & ? & ? & _ & _ & _ & ?). congruence.
Qed.

(** The pedigrees [load_data] builds: dicts in which every record carries
    its key as name. *)
Lemma load_rows_pedigree rows : ∀ data loaded,
  is_dict data → (∀ person entry, (person, entry) ∈ data → name entry = person) →
  foldM load_row data rows = Ok loaded →
  is_dict loaded ∧ ∀ person entry, (person, entry) ∈ loaded → name entry = person.
Proof.
  induction rows as [|r rows IH]; intros data loaded Hd Hnames; cbn [foldM].
  { by intros [= <-]. }
  destruct (load_row data r) as [data'|e] eqn:Hrow; [|done].
  rewrite bind_Ok. apply IH.
  - unfold load_row in Hrow.
    destruct (dict_get r "name"), (dict_get r "mother"), (dict_get r "father"),
      (dict_get r "trait"); try done.
    rewrite !bind_Ok in Hrow. injection Hrow as <-. by apply is_dict_set.
  - intros person entry Hin. unfold load_row in Hrow.
    destruct (dict_get r "name") as [n|], (dict_get r "mother") as [m|],
      (dict_get r "father") as [f|], (dict_get r "trait") as [t|]; try done.
    rewrite !bind_Ok in Hrow. injection Hrow as <-.
    assert (is_dict (dict_set data n (person_of n m f t))) as Hd'
      by by apply is_dict_set.
    assert (dict_get (dict_set data n (person_of n m f t)) person = Ok entry)
      as Hget.
    { clear -Hin Hd'. revert Hin Hd'.
      generalize (dict_set data n (person_of n m f t)). intros d.
      induction d as [|[k v] d IHd]; [by intros ?%elem_of_nil|].
      intros Hin Hd. cbn [dict_get]. unfold is_dict, dict_keys in Hd.
      rewrite fmap_cons in Hd. apply NoDup_cons in Hd as [Hk Hd].
      apply elem_of_cons in Hin as [[= <- <-]|Hin]; [by rewrite decide_True|].
      rewrite decide_False; [by apply IHd|]. intros ->. apply Hk.
      apply list_elem_of_fmap. by exists (person, entry). }
    rewrite dict_get_set in Hget. destruct (decide (n = person)) as [->|].
    + by injection Hget as <-.
    + by apply Hnames, dict_get_elem.
Qed.

(** X19: what [load_data] returns is a pedigree as [main] takes it: no name
    occurs twice, and every record carries the name it is stored under. *)
Theorem load_data_pedigree rows people :
  load_data rows = Ok people →
  is_dict people ∧
  ∀ person entry, (person, entry) ∈ people → name entry = person.
Proof.
  apply load_rows_pedigree; [apply NoDup_nil_2|]. by intros ?? ?%elem_of_nil.
Qed.

Lemma load_data_pedigree_witness :
  is_dict [("Harry", person_of "Harry" "Lily" "James" "1")] ∧
  ∀ person entry,
    (person, entry) ∈ [("Harry", person_of "Harry" "Lily" "James" "1")] →
    name entry = person.
Proof.
  apply (load_data_pedigree [csv_row "Harry" "" "" "0";
                             csv_row "Harry" "Lily" "James" "1"]).
  reflexivity.
Defined.

Lemma load_rows_outcome rows : ∀ data,
  (Forall complete_row rows ∧ ∃ loaded, foldM load_row data rows = Ok loaded) ∨
  (Exists (λ r, ¬ complete_row r) rows ∧
   foldM load_row data rows = Raise KeyError).
Proof.
  induction rows as [|r rows IH]; intros data; cbn [foldM].
  { left. split; [constructor|by eexists]. }
  destruct (load_row data r) as [data'|e] eqn:Hrow.
  - rewrite bind_Ok.
    assert (complete_row r) as Hr.
    { unfold load_row in Hrow.
      destruct (dict_get r "name") as [n|] eqn:?, (dict_get r "mother") as [m|] eqn:?,
        (dict_get r "father") as [f|] eqn:?, (dict_get r "trait") as [t|] eqn:?;
        try done.
      by exists n, m, f, t. }
    destruct (IH data') as [[Hall Hok]|[Hex Hraise]].
    + left. split; [by constructor|done].
    + right. split; [by apply Exists_cons_tl|done].
  - apply load_row_Raise in Hrow as [-> Hr]. right.
    split; [by apply Exists_cons_hd|done].
Qed.

(** X20: [load_data] returns a pedigree when every row has the fields name,
    mother, father and trait, whatever their text; when some row lacks one
    of them it raises [KeyError].  It rejects nothing else: no name, parent
    or trait text makes it fail. *)
Theorem load_data_outcome rows :
  (Forall complete_row rows ∧ ∃ people, load_data rows = Ok people) ∨
  (Exists (λ r, ¬ complete_row r) rows ∧ load_data rows = Raise KeyError).
Proof. apply load_rows_outcome. Qed.

Lemma load_rows_last rows : ∀ data n entry,
  Forall complete_row rows →
  Forall (λ r, row_name r ≠ Some n) rows →
  dict_get data n = Ok entry →
  ∃ loaded, foldM load_row data rows = Ok loaded ∧ dict_get loaded n = Ok entry.
Proof.
  induction rows as [|r rows IH]; intros data n entry Hall Hnot Hget; cbn [foldM].
  { by exists data. }
  apply Forall_cons in Hall as [Hr Hall]. apply Forall_cons in Hnot as [Hrn Hnot].
  destruct (load_row_complete data r Hr) as (n' & m & f & t & _ & Hname & -> & _).
  rewrite bind_Ok. apply IH; [done..|].
  rewrite dict_get_set, decide_False; [done|]. intros ->. by apply Hrn.
Qed.

(** X21: the record of a person is the one of the last row with the
    person's name: a later row replaces an earlier one of the same name.
    The mother and the father are [None] when the cell is empty, and the
    trait is [True] for the text 1, [False] for the text 0 and [None] for
    any other text. *)
Theorem load_data_last_row rows1 rows2 n m f t :
  Forall complete_row rows1 → Forall complete_row rows2 →
  Forall (λ r, row_name r ≠ Some n) rows2 →
  ∃ people,
    load_data (rows1 ++ csv_row n m f t :: rows2) = Ok people ∧
    dict_get people n = Ok (person_of n m f t).
Proof.
  intros H1 H2 Hnot. unfold load_data. rewrite foldM_app.
  destruct (load_rows_outcome rows1 []) as [[_ [data ->]]|[Hex _]].
  2: { apply Exists_exists in Hex as (r & Hr & Hnc).
       rewrite Forall_forall in H1. by destruct Hnc; apply H1. }
  rewrite bind_Ok. cbn [foldM].
  change (load_row data (csv_row n m f t))
    with (Ok (dict_set data n (person_of n m f t))).
  rewrite bind_Ok. apply load_rows_last; [done..|].
  by rewrite dict_get_set, decide_True.
Qed.

Lemma load_data_last_row_witness :
  ∃ people,
    load_data ([csv_row "Harry" "" "" "0"]
               ++ csv_row "Harry" "Lily" "James" "1"
               :: [csv_row "Lily" "" "" ""]) = Ok people ∧
    dict_get people "Harry" = Ok (person_of "Harry" "Lily" "James" "1").
Proof.
  apply (load_data_last_row [csv_row "Harry" "" "" "0"]
           [csv_row "Lily" "" "" ""] "Harry" "Lily" "James" "1").
  - repeat constructor. by exists "Harry", "", "", "0".
  - repeat constructor. by exists "Lily", "", "", "".
  - repeat constructor. discriminate.
Defined.

(** X22: loading and inferring compose: on rows that all have the four
    fields, [load_data] followed by [main] raises nothing and returns a
    table over the loaded persons in which every distribution sums to 1. *)
Theorem load_data_main rows :
  Forall complete_row rows →
  ∃ people probabilities,
    load_data rows = Ok people ∧
    main people = Ok probabilities ∧
    dict_keys probabilities = dict_keys people ∧
    Forall (λ kv, sum_gene kv.2 = 1%Qc ∧ sum_trait kv.2 = 1%Qc) probabilities.
Proof.
  intros Hrows.
  destruct (load_rows_outcome rows []) as [[_ [people Hload]]|[Hex _]].
  2: { apply Exists_exists in Hex as (r & Hr & Hnc).
       rewrite Forall_forall in Hrows. by destruct Hnc; apply Hrows. }
  assert (is_dict people) as Hd.
  { eapply (load_rows_pedigree rows [] people); [apply NoDup_nil_2| |done].
    by intros ?? ?%elem_of_nil. }
  exists people. eexists. split; [done|]. split; [by apply main_posterior|].
  pose proof (mass_all_pos people _ (hypotheses_nonempty people)) as Hpos.
  apply Qclt_not_eq in Hpos. split.
  - unfold dict_keys. rewrite <-list_fmap_compose. apply list_fmap_id.
  - apply Forall_fmap, Forall_forall. intros person _. cbn [compose snd].
    pose proof (normalized_accumulated people person (hypotheses_nonempty people))
      as Hnorm.
    apply (f_equal snd) in Hnorm. cbn [snd] in Hnorm. rewrite <-Hnorm.
    unfold normalized. cbn [snd].
    split; apply py_sum_scale_one;
      fold (sum_gene (accumulated people (hypotheses people) person))
           (sum_trait (accumulated people (hypotheses people) person));
      rewrite ?sum_gene_accumulated, ?sum_trait_accumulated; congruence.
Qed.

Lemma load_data_main_witness :
  ∃ people probabilities,
    load_data [csv_row "Harry" "Lily" "James" ""; csv_row "James" "" "" "1";
               csv_row "Lily" "" "" "0"] = Ok people ∧
    main people = Ok probabilities ∧
    dict_keys probabilities = dict_keys people ∧
    Forall (λ kv, sum_gene kv.2 = 1%Qc ∧ sum_trait kv.2 = 1%Qc) probabilities.
Proof.
  apply (load_data_main [csv_row "Harry" "Lily" "James" ""; csv_row "James" "" "" "1";
                         csv_row "Lily" "" "" "0"]).
  repeat constructor;
    [by exists "Harry", "Lily", "James", ""|by exists "James", "", "", "1"
    |by exists "Lily", "", "", "0"].
Defined.

Example load_data_family :
  load_data [csv_row "Harry" "Lily" "James" ""; csv_row "James" "" "" "1";
             csv_row "Lily" "" "" "0"] = Ok family.
Proof. reflexivity. Qed.

(** ** joint_probability does not read the evidence *)

(** X23: [joint_probability] reads of a record only the mother and the
    father: two pedigrees with the same persons and the same parents give
    the same joint probability, whatever traits were observed. *)
Theorem joint_probability_ignores_evidence people people'
    one_gene two_genes have_trait :
  is_dict people →
  Forall2 (λ kv kv', kv'.1 = kv.1 ∧ mother kv'.2 = mother kv.2 ∧
                      father kv'.2 = father kv.2) people people' →
  joint_probability people' one_gene two_genes have_trait
  = joint_probability people one_gene two_genes have_trait.
Proof.
  intros Hd Hsame.
  assert (dict_keys people' = dict_keys people) as Hkeys.
  { unfold dict_keys. clear Hd.
    induction Hsame as [|kv kv' l l' [Hk _] _ IH]; [done|].
    rewrite !fmap_cons. by f_equal. }
  rewrite !joint_probability_steps; [|done|by unfold is_dict; rewrite Hkeys].
  do 2 f_equal. clear Hd Hkeys.
  induction Hsame as [|[k e] [k' e'] l l' (Hk & Hm & Hf) _ IH]; [done|].
  cbn [fst snd] in Hk, Hm, Hf. subst k'. rewrite !fmap_cons, IH.
  f_equal. cbn [fst snd]. unfold step_factor. by rewrite Hm, Hf.
Qed.

Lemma joint_probability_ignores_evidence_witness :
  joint_probability [("Harry", founder "Harry" (Some true))] ∅ ∅ ∅
  = joint_probability [("Harry", founder "Harry" None)] ∅ ∅ ∅.
Proof.
  apply (joint_probability_ignores_evidence [("Harry", founder "Harry" None)]
           [("Harry", founder "Harry" (Some true))] ∅ ∅ ∅).
  - by_decide.
  - repeat constructor.
Defined.
